(** * textio: a shallow embedding of the token reader and its delimiters

    The development follows the Go sources of the repository:
    - [errors]           errors.go (ReaderError and its constructors);
    - [bufio]            the part of the standard library's bufio.Scanner
                         protocol the readers drive their split functions
                         through;
    - [reader]           reader.go (Reader with a literal or a compiled
                         delimiter, ReadTokens, StreamTokens);
    - [stopdelim]        the Delimiter with a token and a stop pattern;
    - [delimiter]        the Delimiter with one pattern (regexpr / str);
    - [readercloser]     the ReaderCloser over a shared *Reader.

    The regular expressions of the standard library are an interface
    ([RegexpEngine]); [toyregexp] is a small engine to run examples with.
    The properties are in [reader_scan] (ReadTokens and StreamTokens along
    the runs of the scanner), [reader_examples], [delimiter_facts] and
    [builder_facts]; then [split_facts], [reader_facts], [pattern_facts],
    [closer_facts] and [error_facts] on every Reader, Delimiter and
    ReaderCloser, [endreader] for the Reader with an end delimiter, and
    [fact_examples].

    Go strings and byte slices are lists of 8-bit characters; Go ints are
    integers of [Z]; a nil slice is [None], an empty one [Some []]. *)

From Stdlib Require Import ZArith List Bool Ascii String Lia.
From stdpp Require Import base option list gmap.
Import ListNotations.

Local Open Scope Z_scope.

(** ** Bytes *)

Abbreviation bytes := (list ascii).

(** A string literal as bytes. *)
Definition B (s : string) : bytes := list_ascii_of_string s.

(** len(data) *)
Definition len {A} (l : list A) : Z := Z.of_nat (length l).

(** data[:i] and data[i:] for an index already checked to be in range. *)
Definition upto {A} (l : list A) (i : Z) : list A := take (Z.to_nat i) l.
Definition from {A} (l : list A) (i : Z) : list A := drop (Z.to_nat i) l.

Definition is_empty {A} (l : list A) : bool :=
  match l with [] => true | _ => false end.

(** x != nil *)
Definition notnil {A} (x : option A) : bool :=
  match x with Some _ => true | None => false end.

Fixpoint bytes_eqb (a b : bytes) : bool :=
  match a, b with
  | [], [] => true
  | x :: a', y :: b' => Ascii.eqb x y && bytes_eqb a' b'
  | _, _ => false
  end.

(** [has_prefix data sep]: data starts with sep. *)
Fixpoint has_prefix (data sep : bytes) {struct sep} : bool :=
  match sep, data with
  | [], _ => true
  | _ :: _, [] => false
  | x :: sep', y :: data' => Ascii.eqb x y && has_prefix data' sep'
  end.

(** Leftmost occurrence of [sep] in [data], as a position. *)
Fixpoint index_of (data sep : bytes) : option nat :=
  if has_prefix data sep then Some 0%nat
  else match data with
       | [] => None
       | _ :: data' => S <$> index_of data' sep
       end.

(** bytes.Index / strings.Index: the position, or -1. *)
Definition Index (data sep : bytes) : Z :=
  match index_of data sep with
  | Some i => Z.of_nat i
  | None => -1
  end.

(** strings.Cut *)
Definition Cut (s sep : bytes) : bytes * bytes * bool :=
  let i := Index s sep in
  if 0 <=? i then (upto s i, from s (i + len sep), true)
  else (s, [], false).

(** strings.Contains *)
Definition Contains (s sep : bytes) : bool := 0 <=? Index s sep.

Definition newline : ascii := ascii_of_nat 10.
Definition cr : ascii := ascii_of_nat 13.

(** White space as strings.TrimSpace sees it in ASCII text. *)
Definition isSpace (c : ascii) : bool :=
  let n := nat_of_ascii c in
  ((9 <=? n) && (n <=? 13) || (n =? 32))%nat.

(** ** Compiled expressions

    The regexp engine is the standard library's; the readers use it through
    FindIndex and MatchString only.  A location is [Some (lo, hi)] for
    loc = [lo, hi] and [None] for a nil loc. *)

Class RegexpEngine := {
  Regexp : Type;
  FindIndex : Regexp -> bytes -> option (Z * Z);
  MatchString : Regexp -> bytes -> bool;
  (** regexp.MustCompile: [None] when the expression does not compile
      (the call panics). *)
  MustCompile : bytes -> option Regexp;
  FindIndex_bounds : forall re data lo hi,
    FindIndex re data = Some (lo, hi) -> 0 <= lo <= hi /\ hi <= len data
}.

(** Facts about the leftmost occurrence. *)

Lemma has_prefix_app (data sep : bytes) :
  has_prefix data sep = true -> data = sep ++ drop (length sep) data.
Proof.
  revert data. induction sep as [|x sep IH]; intros [|y data]; simpl; try done.
  intros [Hxy Hp]%andb_prop. apply Ascii.eqb_eq in Hxy. subst y.
  f_equal. by apply IH.
Qed.

Lemma has_prefix_refl (sep rest : bytes) : has_prefix (sep ++ rest) sep = true.
Proof.
  induction sep as [|x sep IH]; simpl; [done|].
  by rewrite Ascii.eqb_refl, IH.
Qed.

Lemma index_of_Some (data sep : bytes) (i : nat) :
  index_of data sep = Some i ->
  has_prefix (drop i data) sep = true /\ (i + length sep <= length data)%nat.
Proof.
  revert i. induction data as [|c data IH]; intros i; simpl.
  - destruct (has_prefix [] sep) eqn:Hp; [|done].
    intros [= <-]. split; [done|].
    destruct sep; simpl in *; [lia | done].
  - destruct (has_prefix (c :: data) sep) eqn:Hp.
    + intros [= <-]. split; [done|].
      apply has_prefix_app in Hp. apply (f_equal length) in Hp.
      rewrite length_app in Hp. simpl in *. lia.
    + destruct (index_of data sep) as [j|] eqn:Hj; simpl; [|done].
      intros [= <-]. destruct (IH j eq_refl) as [H1 H2]. simpl. split; [done | lia].
Qed.

Lemma index_of_first (data sep : bytes) (i j : nat) :
  index_of data sep = Some i -> (j < i)%nat -> has_prefix (drop j data) sep = false.
Proof.
  revert i j. induction data as [|c data IH]; intros i j; simpl.
  - destruct (has_prefix [] sep); [|done]. intros [= <-]. lia.
  - destruct (has_prefix (c :: data) sep) eqn:Hp.
    + intros [= <-]. lia.
    + destruct (index_of data sep) as [k|] eqn:Hk; simpl; [|done].
      intros [= <-] Hlt. destruct j as [|j]; simpl; [done|].
      apply (IH k); [done | lia].
Qed.

Lemma index_of_None (data sep : bytes) (j : nat) :
  index_of data sep = None -> has_prefix (drop j data) sep = false.
Proof.
  revert j. induction data as [|c data IH]; intros j; simpl.
  - destruct (has_prefix [] sep) eqn:Hp; [done|]. intros _. by destruct j.
  - destruct (has_prefix (c :: data) sep) eqn:Hp; [done|].
    destruct (index_of data sep) eqn:Hk; simpl; [done|].
    intros _. destruct j as [|j]; simpl; [done | by apply IH].
Qed.

Lemma Index_bounds (data sep : bytes) :
  0 <= Index data sep -> Index data sep + len sep <= len data.
Proof.
  unfold Index, len. destruct (index_of data sep) as [i|] eqn:Hi; [|lia].
  intros _. apply index_of_Some in Hi. lia.
Qed.

Lemma has_prefix_app_l (x rest sep : bytes) :
  has_prefix x sep = true -> has_prefix (x ++ rest) sep = true.
Proof.
  intros H. apply has_prefix_app in H. rewrite H, <- app_assoc.
  apply has_prefix_refl.
Qed.

Lemma has_prefix_app_long (x rest sep : bytes) :
  (length sep <= length x)%nat -> has_prefix (x ++ rest) sep = has_prefix x sep.
Proof.
  revert x. induction sep as [|c sep IH]; intros [|y x] Hlen; simpl in *;
    try done; try lia.
  rewrite IH by lia. done.
Qed.

(** The leftmost occurrence is the first position where [sep] starts. *)
Lemma index_of_first_prefix (data sep : bytes) (i : nat) :
  has_prefix (drop i data) sep = true ->
  (forall j, (j < i)%nat -> has_prefix (drop j data) sep = false) ->
  index_of data sep = Some i.
Proof.
  revert i. induction data as [|c data IH]; intros i Hp Hfirst; simpl.
  - destruct i as [|i]; [simpl in Hp; by rewrite Hp|].
    specialize (Hfirst 0%nat ltac:(lia)). rewrite drop_nil in Hp.
    simpl in Hfirst. congruence.
  - destruct i as [|i]; [simpl in Hp; by rewrite Hp|].
    pose proof (Hfirst 0%nat ltac:(lia)) as H0. simpl in H0. rewrite H0.
    rewrite (IH i); [done | done |].
    intros j Hj. apply (Hfirst (S j)). lia.
Qed.

(** An occurrence found in the bytes read so far is the leftmost one of the
    whole input. *)
Lemma index_of_app (data rest sep : bytes) (i : nat) :
  index_of data sep = Some i -> index_of (data ++ rest) sep = Some i.
Proof.
  intros Hi. pose proof (index_of_Some _ _ _ Hi) as [Hp Hlen].
  apply index_of_first_prefix.
  - rewrite drop_app_le by lia. by apply has_prefix_app_l.
  - intros j Hj. rewrite drop_app_le by lia.
    rewrite has_prefix_app_long by (rewrite length_drop; lia).
    by apply (index_of_first _ _ i).
Qed.

Lemma Index_app (data rest sep : bytes) :
  0 <= Index data sep -> Index (data ++ rest) sep = Index data sep.
Proof.
  unfold Index. destruct (index_of data sep) as [i|] eqn:Hi; [|lia].
  intros _. by rewrite (index_of_app _ rest _ _ Hi).
Qed.

(** A small engine to run the readers on: a pattern is a literal text or
    one or more characters of a class. *)

Module toyregexp.

Inductive pattern :=
| Lit (s : bytes)
| Run (cls : ascii -> bool).

(** Position of the first character of the class. *)
Fixpoint first_in (cls : ascii -> bool) (data : bytes) : option nat :=
  match data with
  | [] => None
  | c :: data' => if cls c then Some 0%nat else S <$> first_in cls data'
  end.

(** Length of the longest prefix inside the class. *)
Fixpoint run_length (cls : ascii -> bool) (data : bytes) : nat :=
  match data with
  | c :: data' => if cls c then S (run_length cls data') else 0%nat
  | [] => 0%nat
  end.

Definition find (p : pattern) (data : bytes) : option (Z * Z) :=
  match p with
  | Lit s =>
      let i := Index data s in
      if 0 <=? i then Some (i, i + len s) else None
  | Run cls =>
      match first_in cls data with
      | Some i => Some (Z.of_nat i, Z.of_nat (i + run_length cls (drop i data)))
      | None => None
      end
  end.

Definition matches (p : pattern) (s : bytes) : bool :=
  match find p s with Some _ => true | None => false end.

(** The expressions this engine compiles: \s+ and plain text. *)
Definition compile (expr : bytes) : option pattern :=
  if bytes_eqb expr (B "\s+") then Some (Run isSpace)
  else if forallb (fun c => negb (existsb (Ascii.eqb c) (B "\.+*?()|[]{}^$"))) expr
       then Some (Lit expr)
       else None.

Lemma first_in_lt cls data i : first_in cls data = Some i -> (i < length data)%nat.
Proof.
  revert i. induction data as [|c data IH]; intros i; simpl; [done|].
  destruct (cls c); [intros [= <-]; lia|].
  destruct (first_in cls data) as [j|]; simpl; [|done].
  intros [= <-]. specialize (IH j eq_refl). lia.
Qed.

Lemma run_length_le cls data : (run_length cls data <= length data)%nat.
Proof. induction data as [|c data IH]; simpl; [lia|]. destruct (cls c); simpl; lia. Qed.

Lemma find_bounds p data lo hi :
  find p data = Some (lo, hi) -> 0 <= lo <= hi /\ hi <= len data.
Proof.
  destruct p as [s|cls]; simpl.
  - destruct (0 <=? Index data s) eqn:Hi; [|done].
    intros [= <- <-]. apply Z.leb_le in Hi.
    pose proof (Index_bounds data s Hi). unfold len in *. lia.
  - destruct (first_in cls data) as [i|] eqn:Hi; [|done].
    intros [= <- <-]. apply first_in_lt in Hi.
    pose proof (run_length_le cls (drop i data)) as Hr.
    rewrite length_drop in Hr. unfold len. lia.
Qed.

Definition engine : RegexpEngine :=
  {| Regexp := pattern; FindIndex := find; MatchString := matches;
     MustCompile := compile; FindIndex_bounds := find_bounds |}.

End toyregexp.

(** ** Results of calls that may panic or block *)

Inductive result (A : Type) : Type :=
| Ret (a : A)
| Panic (msg : string)
| Blocked
| OutOfFuel.
Arguments Ret {A} a.
Arguments Panic {A} msg.
Arguments Blocked {A}.
Arguments OutOfFuel {A}.

(** ** errors.go *)

Module errors.

(** What runtime.Caller reports about the originating call site. *)
Record CallSite := mkCallSite {
  site_file : string;            (* full path of the file *)
  site_func : option string;     (* qualified function name, when known *)
  site_line : Z
}.

(** Go error values: the sentinels of the packages involved, opaque causes,
    and the package's own *ReaderError. *)
#[warnings="-register-all"]
Inductive error : Type :=
| EOF                    (* io.EOF *)
| ErrNoProgress          (* io.ErrNoProgress *)
| ErrFinalToken          (* bufio.ErrFinalToken *)
| ErrTooLong
| ErrNegativeAdvance
| ErrAdvanceTooFar
| ErrBadReadCount
| Canceled               (* context.Canceled *)
| DeadlineExceeded       (* context.DeadlineExceeded *)
| ErrInvalid
| ErrRead
| ErrClose
| ErrOpen
| Cause (msg : string)   (* any other error, e.g. from the operating system *)
| ReaderErr (Kind : option error) (Err : option error) (Token : bytes)
            (Index : Z) (FileName FuncName : string) (ErrorLine : Z).

Definition Kind (e : error) : option error :=
  match e with ReaderErr k _ _ _ _ _ _ => k | _ => None end.
Definition Err (e : error) : option error :=
  match e with ReaderErr _ c _ _ _ _ _ => c | _ => None end.
Definition Token (e : error) : bytes :=
  match e with ReaderErr _ _ t _ _ _ _ => t | _ => [] end.
Definition ErrIndex (e : error) : Z :=
  match e with ReaderErr _ _ _ i _ _ _ => i | _ => -1 end.

(** s[i+1:] for i = strings.LastIndex(s, c), when c occurs in s. *)
Fixpoint after_last_opt (c : ascii) (s : string) : option string :=
  match s with
  | EmptyString => None
  | String x s' =>
      match after_last_opt c s' with
      | Some r => Some r
      | None => if Ascii.eqb x c then Some s' else None
      end
  end.

(** The text after the last occurrence of [c], or all of it. *)
Definition after_last (c : ascii) (s : string) : string :=
  match after_last_opt c s with Some r => r | None => s end.

(** newReaderError(skip): the call site [skip] frames up is given by the
    runtime; only the base names are kept. *)
Definition newReaderError (caller : CallSite) : error :=
  ReaderErr None None [] (-1)
            (after_last "/" (site_file caller))
            (match site_func caller with
             | Some name => after_last "." name
             | None => EmptyString
             end)
            (site_line caller).

Definition set_Kind (k : error) (e : error) : error :=
  match e with ReaderErr _ c t i f g l => ReaderErr (Some k) c t i f g l | _ => e end.
Definition set_Err (c : error) (e : error) : error :=
  match e with ReaderErr k _ t i f g l => ReaderErr k (Some c) t i f g l | _ => e end.
Definition set_Token (t : bytes) (e : error) : error :=
  match e with ReaderErr k c _ i f g l => ReaderErr k c t i f g l | _ => e end.
Definition set_Index (i : Z) (e : error) : error :=
  match e with ReaderErr k c t _ f g l => ReaderErr k c t i f g l | _ => e end.

Definition newErrInvalid (caller : CallSite) (token : bytes) (index : Z) : error :=
  let re := newReaderError caller in
  let re := set_Kind ErrInvalid re in
  let re := set_Token token re in
  set_Index index re.

Definition newErrRead (caller : CallSite) (err : error) : error :=
  let re := newReaderError caller in
  let re := set_Kind ErrRead re in
  set_Err err re.

(** Modelled from the spec: newErrClose is called by Close but its body is
    not among the sources; the spec's taxonomy makes it the Close-tagged
    ReaderError wrapping the cause, built like newErrRead. *)
Definition newErrClose (caller : CallSite) (err : error) : error :=
  let re := newReaderError caller in
  let re := set_Kind ErrClose re in
  set_Err err re.

(** Modelled from the spec: newErrOpen is called by FromFile but its body is
    not among the sources; the spec's taxonomy makes it the Open-tagged
    ReaderError wrapping the cause. *)
Definition newErrOpen (caller : CallSite) (err : error) : error :=
  let re := newReaderError caller in
  let re := set_Kind ErrOpen re in
  set_Err err re.

(** (e *ReaderError).Is and Unwrap *)
Definition error_eqb_sentinel (a b : error) : bool :=
  match a, b with
  | EOF, EOF | ErrNoProgress, ErrNoProgress | ErrFinalToken, ErrFinalToken
  | ErrTooLong, ErrTooLong | ErrNegativeAdvance, ErrNegativeAdvance
  | ErrAdvanceTooFar, ErrAdvanceTooFar | ErrBadReadCount, ErrBadReadCount
  | Canceled, Canceled | DeadlineExceeded, DeadlineExceeded
  | ErrInvalid, ErrInvalid | ErrRead, ErrRead | ErrClose, ErrClose
  | ErrOpen, ErrOpen => true
  | _, _ => false
  end.

Definition Is (e target : error) : bool :=
  match Kind e with
  | Some k => error_eqb_sentinel k target
  | None => false
  end.

Definition Unwrap (e : error) : option error := Err e.

End errors.
Export errors.

(** ** io.Reader sources and bufio.Scanner *)

Module bufio.

(** A byte source: what successive Read calls hand over, then the error every
    later Read returns (io.EOF for a source that simply ends). *)
Record Source := mkSource {
  chunks : list bytes;
  final : error
}.

(** strings.NewReader / bytes.NewReader: the bytes in one Read, then
    io.EOF. *)
Definition NewReader (s : bytes) : Source :=
  {| chunks := if is_empty s then [] else [s]; final := EOF |}.

(** io.MultiReader: the sources one after the other; a source that ends
    with io.EOF gives way to the next, any other error ends the stream. *)
Fixpoint MultiReader (rs : list Source) : Source :=
  match rs with
  | [] => {| chunks := []; final := EOF |}
  | r :: rs' =>
      match final r with
      | EOF => let m := MultiReader rs' in
               {| chunks := chunks r ++ chunks m; final := final m |}
      | e => {| chunks := chunks r; final := e |}
      end
  end.

(** What a split function returns: advance, token (nil or a slice), err. *)
Inductive SplitResult :=
| Split (advance : Z) (token : option bytes) (err : option error)
| SplitPanic (msg : string).

Definition SplitFunc := bytes -> bool -> SplitResult.

(** bytes.IndexByte *)
Definition IndexByte (data : bytes) (c : ascii) : Z := Index data [c].

(** dropCR drops a terminal \r from the data. *)
Definition dropCR (data : bytes) : bytes :=
  match last data with
  | Some c => if Ascii.eqb c cr then removelast data else data
  | None => data
  end.

(** bufio.ScanLines *)
Definition ScanLines : SplitFunc := fun data atEOF =>
  if atEOF && is_empty data then Split 0 None None
  else
    let i := IndexByte data newline in
    if 0 <=? i then Split (i + 1) (Some (dropCR (upto data i))) None
    else if atEOF then Split (len data) (Some (dropCR data)) None
    else Split 0 None None.

(** The scanner: the source not read yet, the unconsumed part of the
    buffer (s.buf[s.start:s.end]), the last token, the sticky error, the
    count of non-advancing tokens at EOF, and the done flag. *)
Record Scanner := mkScanner {
  r : list bytes;
  r_final : error;
  buf : bytes;
  tok : option bytes;
  err : option error;
  empties : nat;
  done : bool
}.

Definition NewScanner (src : Source) : Scanner :=
  {| r := chunks src; r_final := final src; buf := []; tok := None;
     err := None; empties := 0; done := false |}.

Definition maxConsecutiveEmptyReads : nat := 100.

(** The largest buffer NewScanner allows, and so the room for one token
    with its delimiter. *)
Definition MaxScanTokenSize : Z := 64 * 1024.

(** setErr records the first error encountered. *)
Definition setErr (e : error) (s : Scanner) : Scanner :=
  match err s with
  | None | Some EOF =>
      {| r := r s; r_final := r_final s; buf := buf s; tok := tok s;
         err := Some e; empties := empties s; done := done s |}
  | Some _ => s
  end.

(** s.Text() *)
Definition Text (s : Scanner) : bytes :=
  match tok s with Some t => t | None => [] end.

(** s.Err(): nil when the error is io.EOF. *)
Definition Err (s : Scanner) : option error :=
  match err s with
  | Some EOF => None
  | e => e
  end.

(** How one pass of the body of Scan's loop ends. *)
Inductive pass :=
| Done_ (res : result (bool * Scanner))      (* Scan returns (or panics) *)
| More (s : Scanner).                        (* no token yet *)

(** First half of the loop body: offer the buffered data to the split
    function when there is any, or when an error is pending. *)
Definition try_split (split : SplitFunc) (s : Scanner) : pass :=
  if negb (is_empty (buf s)) || notnil (err s) then
    match split (buf s) (notnil (err s)) with
    | SplitPanic m => Done_ (Panic m)
    | Split advance token (Some e) =>
        match e with
        | ErrFinalToken =>
            Done_ (Ret (notnil token,
                        {| r := r s; r_final := r_final s; buf := buf s; tok := token;
                           err := err s; empties := empties s; done := true |}))
        | _ => Done_ (Ret (false, setErr e s))
        end
    | Split advance token None =>
        if advance <? 0 then Done_ (Ret (false, setErr ErrNegativeAdvance s))
        else if len (buf s) <? advance then Done_ (Ret (false, setErr ErrAdvanceTooFar s))
        else
          let s1 := {| r := r s; r_final := r_final s; buf := from (buf s) advance;
                       tok := token; err := err s; empties := empties s;
                       done := done s |} in
          match token with
          | Some _ =>
              if negb (notnil (err s)) || (0 <? advance) then
                Done_ (Ret (true,
                  {| r := r s1; r_final := r_final s1; buf := buf s1; tok := tok s1;
                     err := err s1; empties := 0; done := done s1 |}))
              else if (maxConsecutiveEmptyReads <? S (empties s))%nat then
                Done_ (Panic "bufio.Scan: too many empty tokens without progressing")
              else
                Done_ (Ret (true,
                  {| r := r s1; r_final := r_final s1; buf := buf s1; tok := tok s1;
                     err := err s1; empties := S (empties s); done := done s1 |}))
          | None => More s1
          end
    end
  else More s.

(** "If we've already hit EOF or an I/O error, we are done": shut it down. *)
Definition shutdown (s : Scanner) : result (bool * Scanner) :=
  Ret (false, {| r := r s; r_final := r_final s; buf := []; tok := tok s;
                 err := err s; empties := empties s; done := done s |}).

(** A pass of the loop with the error already set. *)
Definition pass_at_err (split : SplitFunc) (s : Scanner) : result (bool * Scanner) :=
  match try_split split s with
  | Done_ res => res
  | More s1 => shutdown s1
  end.

(** "Must read more data": the scan fails with ErrTooLong when the buffer
    is full at its largest size; otherwise the inner read loop (at most
    maxConsecutiveEmptyReads empty reads in a row), followed by the next
    passes of the outer loop.  [loop] counts the empty reads so far.  The
    buffer is full at its largest size when the unconsumed bytes fill it: a
    Read hands over no more than the room left. *)
Fixpoint read_more (split : SplitFunc) (src : list bytes) (loop : nat)
    (s : Scanner) : result (bool * Scanner) :=
  if MaxScanTokenSize <=? len (buf s) then
    Ret (false, setErr ErrTooLong
      {| r := src; r_final := r_final s; buf := buf s; tok := tok s;
         err := err s; empties := empties s; done := done s |})
  else
  match src with
  | [] =>
      (* Read returns 0 and the source's final error *)
      pass_at_err split (setErr (r_final s)
        {| r := []; r_final := r_final s; buf := buf s; tok := tok s;
           err := err s; empties := empties s; done := done s |})
  | c :: src' =>
      if is_empty c then
        if (maxConsecutiveEmptyReads <? S loop)%nat then
          pass_at_err split (setErr ErrNoProgress
            {| r := src'; r_final := r_final s; buf := buf s; tok := tok s;
               err := err s; empties := empties s; done := done s |})
        else read_more split src' (S loop) s
      else
        let s1 := {| r := src'; r_final := r_final s; buf := buf s ++ c;
                     tok := tok s; err := err s; empties := 0; done := done s |} in
        match try_split split s1 with
        | Done_ res => res
        | More s2 =>
            match err s2 with
            | Some _ => shutdown s2
            | None => read_more split src' 0 s2
            end
        end
  end.

(** s.Scan() with the split function [split]. *)
Definition Scan (split : SplitFunc) (s : Scanner) : result (bool * Scanner) :=
  if done s then Ret (false, s)
  else
    match try_split split s with
    | Done_ res => res
    | More s1 =>
        match err s1 with
        | Some _ => shutdown s1
        | None => read_more split (r s1) 0 s1
        end
    end.

End bufio.

(** ** Normalizers and filters (shared by the readers) *)

Definition NormalizeFunc := bytes -> bytes.
Definition FilterFunc := bytes -> bool.

Fixpoint TrimLeft (s : bytes) : bytes :=
  match s with
  | c :: s' => if isSpace c then TrimLeft s' else s
  | [] => []
  end.

(** strings.TrimSpace *)
Definition TrimSpace (s : bytes) : bytes := rev (TrimLeft (rev (TrimLeft s))).

Definition NormalizeTrimSpace : NormalizeFunc := TrimSpace.

Definition FilterMinLength (n : Z) : FilterFunc := fun s => n <=? len s.
Definition FilterMaxLength (n : Z) : FilterFunc := fun s => len s <=? n.
Definition FilterNonEmpty : FilterFunc := fun s => negb (is_empty (TrimSpace s)).
Definition Not (f : FilterFunc) : FilterFunc := fun s => negb (f s).


(** ** The select of StreamTokens

    [select { case out <- token: ; case <-ctx.Done(): return ctx.Err() }]
    is resolved by the state of the two channels when the statement stops
    blocking: whether the consumer can take the token, whether the context
    is done, and, when both cases can proceed, which one the runtime picks. *)

Record Handoff := mkHandoff {
  recv_ready : bool;    (* out has room, or a receiver waits *)
  ctx_done : bool;      (* the cancellation signal has fired *)
  pick_send : bool      (* the runtime's choice when both can proceed *)
}.

Inductive Selected := Sent | Cancelled | Never.

Definition select (e : Handoff) : Selected :=
  match recv_ready e, ctx_done e with
  | true, false => Sent
  | false, true => Cancelled
  | true, true => if pick_send e then Sent else Cancelled
  | false, false => Never
  end.

(** The context: its error once done, and the channel states met at the
    successive handoffs of the call. *)
Record Context := mkContext {
  ctx_Err : error;
  handoffs : nat -> Handoff
}.

(** ** reader.go *)

Module reader.
Import bufio.

Section Reader.
Context {engine : RegexpEngine}.

Record Reader := mkReader {
  reader : Source;
  delimiter : option Regexp;
  delimiterStr : bytes;
  normalize : option NormalizeFunc;
  filter : option FilterFunc;
  FailOnError : bool;
  FailOnInvalid : bool
}.

(** NewReader; [stdin] is os.Stdin. *)
Definition NewReader (stdin : Source) : Reader :=
  {| reader := stdin; delimiter := None; delimiterStr := [newline];
     normalize := Some NormalizeTrimSpace; filter := None;
     FailOnError := true; FailOnInvalid := false |}.

(** Setters, as the change they make to the Reader they are called on. *)
Definition SetReaders (readers : list Source) (r : Reader) : Reader :=
  {| reader := MultiReader readers; delimiter := delimiter r;
     delimiterStr := delimiterStr r; normalize := normalize r; filter := filter r;
     FailOnError := FailOnError r; FailOnInvalid := FailOnInvalid r |}.

Definition AddReaders (readers : list Source) (r : Reader) : Reader :=
  SetReaders (reader r :: readers) r.

Definition SetDelimiterStr (s : bytes) (r : Reader) : Reader :=
  let s := if is_empty s then [newline] else s in
  {| reader := reader r; delimiter := None; delimiterStr := s;
     normalize := normalize r; filter := filter r;
     FailOnError := FailOnError r; FailOnInvalid := FailOnInvalid r |}.

Definition SetDelimiter (regexpr : option Regexp) (r : Reader) : Reader :=
  {| reader := reader r; delimiter := regexpr; delimiterStr := [];
     normalize := normalize r; filter := filter r;
     FailOnError := FailOnError r; FailOnInvalid := FailOnInvalid r |}.

Definition SetDelimiterFromString (expr : bytes) (r : Reader) : result Reader :=
  match MustCompile expr with
  | Some regexpr => Ret (SetDelimiter (Some regexpr) r)
  | None => Panic "regexp: Compile: error parsing regexp"
  end.

Definition SetNormalizer (f : option NormalizeFunc) (r : Reader) : Reader :=
  {| reader := reader r; delimiter := delimiter r; delimiterStr := delimiterStr r;
     normalize := f; filter := filter r;
     FailOnError := FailOnError r; FailOnInvalid := FailOnInvalid r |}.

Definition SetFilter (f : option FilterFunc) (r : Reader) : Reader :=
  {| reader := reader r; delimiter := delimiter r; delimiterStr := delimiterStr r;
     normalize := normalize r; filter := f;
     FailOnError := FailOnError r; FailOnInvalid := FailOnInvalid r |}.

Definition SetFailOnInvalid (b : bool) (r : Reader) : Reader :=
  {| reader := reader r; delimiter := delimiter r; delimiterStr := delimiterStr r;
     normalize := normalize r; filter := filter r;
     FailOnError := FailOnError r; FailOnInvalid := b |}.

(** *** Readers behind pointers

    The methods have pointer receivers; the With and From builders copy the
    pointee into a fresh Reader and call the setter on the copy. *)

Abbreviation heap := (gmap nat Reader).

(** A method with a pointer receiver: the pointee is updated in place. *)
Definition call (f : Reader -> Reader) (p : nat) (h : heap) : heap := alter f p h.

(** newR := *r; newR.set(...); return &newR *)
Definition build (f : Reader -> Reader) (p : nat) (h : heap) : result (nat * heap) :=
  match h !! p with
  | None => Panic "invalid memory address or nil pointer dereference"
  | Some v =>
      let q := fresh (dom h) in
      Ret (q, call f q (<[q := v]> h))
  end.

Definition FromString (s : bytes) := build (SetReaders [bufio.NewReader s]).
Definition FromBytes (b : bytes) := build (SetReaders [bufio.NewReader b]).
Definition WithDelimiter (regexp : option Regexp) := build (SetDelimiter regexp).
Definition WithDelimiterStr (str : bytes) := build (SetDelimiterStr str).
Definition WithNormalizer (n : option NormalizeFunc) := build (SetNormalizer n).
Definition WithFilter (f : option FilterFunc) := build (SetFilter f).
Definition WithReaders (readers : list Source) := build (SetReaders readers).

(** *** Scanning *)

Definition createSplitFunc (r : Reader) : SplitFunc :=
  match delimiter r, is_empty (delimiterStr r) with
  | None, true => ScanLines
  | _, _ => fun data atEOF =>
      if atEOF && is_empty data then Split 0 None None
      else
        let matched :=
          match delimiter r with
          | Some re =>
              match FindIndex re data with
              | Some (lo, hi) => Some (Split hi (Some (upto data lo)) None)
              | None => None
              end
          | None =>
              if negb (is_empty (delimiterStr r)) then
                let '(prefix, _, found) := Cut data (delimiterStr r) in
                if found
                then Some (Split (len prefix + len (delimiterStr r)) (Some prefix) None)
                else None
              else Some (SplitPanic
                "delimiterStr and delimiter fields are both empty. This should not happen !")
          end in
        match matched with
        | Some res => res
        | None =>
            if atEOF then Split (len data) (Some data) None
            else Split 0 None None
        end
  end.

(** The state a read loop is left in: the tokens collected (batch) or
    delivered (streaming), the error returned, and, for the proofs, the
    local counter n and the scanner. *)
Record Exit := mkExit {
  x_tokens : list bytes;
  x_err : option error;
  x_n : Z;
  x_scanner : Scanner
}.

(** The statements after the loop of ReadTokens and StreamTokens. *)
Definition after_loop (caller : CallSite) (r : Reader) (sc : Scanner) (n : Z)
    (tokens : list bytes) : Exit :=
  match Err sc with
  | Some e =>
      if FailOnError r
      then mkExit tokens (Some (newErrRead caller e)) n sc
      else mkExit tokens None n sc
  | None => mkExit tokens None n sc
  end.

(** token = r.normalize(token) when a normalizer is set *)
Definition normalized (r : Reader) (token : bytes) : bytes :=
  match normalize r with Some f => f token | None => token end.

(** r.filter != nil && !r.filter(token) *)
Definition refused (r : Reader) (token : bytes) : bool :=
  match filter r with Some f => negb (f token) | None => false end.

(** The loop of ReadTokens, from the scanner state [sc] with the local
    variables [n] and [tokens]. *)
Fixpoint ReadTokens_loop (fuel : nat) (caller : CallSite) (r : Reader)
    (sc : Scanner) (n : Z) (tokens : list bytes) : result Exit :=
  match fuel with
  | O => OutOfFuel
  | S fuel' =>
      match Scan (createSplitFunc r) sc with
      | Ret (true, sc') =>
          let token := Text sc' in
          if is_empty token then Ret (after_loop caller r sc' n tokens)
          else
            let token := normalized r token in
            if refused r token then
              if FailOnInvalid r
              then Ret (mkExit tokens (Some (newErrInvalid caller token n)) n sc')
              else ReadTokens_loop fuel' caller r sc' (n + len token) tokens
            else ReadTokens_loop fuel' caller r sc' (n + len token) (tokens ++ [token])
      | Ret (false, sc') => Ret (after_loop caller r sc' n tokens)
      | Panic m => Panic m
      | Blocked => Blocked
      | OutOfFuel => OutOfFuel
      end
  end.

(** Every pass that goes round the loop consumes at least one byte, so one
    more pass than there are bytes is enough. *)
Definition passes (src : Source) : nat := S (length (concat (chunks src))).

Definition ReadTokens_exit (caller : CallSite) (r : Reader) : result Exit :=
  ReadTokens_loop (passes (reader r)) caller r (NewScanner (reader r)) 0 [].

Definition ReadTokens (caller : CallSite) (r : Reader)
    : result (list bytes * option error) :=
  match ReadTokens_exit caller r with
  | Ret x => Ret (x_tokens x, x_err x)
  | Panic m => Panic m
  | Blocked => Blocked
  | OutOfFuel => OutOfFuel
  end.

(** The loop of StreamTokens; [k] counts the handoffs made so far and
    [out] is what the consumer has received. *)
Fixpoint StreamTokens_loop (fuel : nat) (caller : CallSite) (r : Reader)
    (ctx : Context) (sc : Scanner) (n : Z) (k : nat) (out : list bytes)
    : result Exit :=
  match fuel with
  | O => OutOfFuel
  | S fuel' =>
      match Scan (createSplitFunc r) sc with
      | Ret (true, sc') =>
          let token := Text sc' in
          if is_empty token then Ret (after_loop caller r sc' n out)
          else
            let token := normalized r token in
            if refused r token then
              if FailOnInvalid r
              then Ret (mkExit out (Some (newErrInvalid caller token n)) n sc')
              else StreamTokens_loop fuel' caller r ctx sc' (n + len token) k out
            else
              match select (handoffs ctx k) with
              | Sent =>
                  StreamTokens_loop fuel' caller r ctx sc' (n + len token) (S k)
                                    (out ++ [token])
              | Cancelled => Ret (mkExit out (Some (ctx_Err ctx)) (n + len token) sc')
              | Never => Blocked
              end
      | Ret (false, sc') => Ret (after_loop caller r sc' n out)
      | Panic m => Panic m
      | Blocked => Blocked
      | OutOfFuel => OutOfFuel
      end
  end.

Definition StreamTokens_exit (caller : CallSite) (r : Reader) (ctx : Context)
    : result Exit :=
  StreamTokens_loop (passes (reader r)) caller r ctx (NewScanner (reader r)) 0 0%nat [].

(** StreamTokens: what the consumer received on [out], and the error. *)
Definition StreamTokens (caller : CallSite) (r : Reader) (ctx : Context)
    : result (list bytes * option error) :=
  match StreamTokens_exit caller r ctx with
  | Ret x => Ret (x_tokens x, x_err x)
  | Panic m => Panic m
  | Blocked => Blocked
  | OutOfFuel => OutOfFuel
  end.

End Reader.
End reader.

(** ** The Delimiter with a token pattern and a stop pattern *)

Module stopdelim.
Import bufio.

Section Delimiter.
Context {engine : RegexpEngine}.

(** By construction, [re] and [str] are not set at the same time. *)
Record pattern := mkPattern {
  re : option Regexp;
  str : bytes
}.

Record Delimiter := mkDelimiter {
  token : pattern;
  stop : pattern
}.

Definition DefaultDelimiter : Delimiter :=
  {| token := {| re := None; str := [newline] |};
     stop := {| re := None; str := [newline; newline] |} |}.

Definition NewDelimiter : Delimiter := DefaultDelimiter.

(** Setters (pointer receivers): the change made to the Delimiter. *)
Definition SetTokenRegexp (regexpr : option Regexp) (d : Delimiter) : Delimiter :=
  {| token := {| re := regexpr; str := [] |}; stop := stop d |}.

Definition SetTokenStr (s : bytes) (d : Delimiter) : Delimiter :=
  {| token := {| re := None; str := s |}; stop := stop d |}.

Definition SetTokenRegexpFromString (expr : bytes) (d : Delimiter) : result Delimiter :=
  if is_empty expr then Panic "empty regexp is not allowed"
  else match MustCompile expr with
       | Some regexpr => Ret {| token := {| re := Some regexpr; str := [] |}; stop := stop d |}
       | None => Panic "regexp: Compile: error parsing regexp"
       end.

Definition SetStopRegexp (regexpr : option Regexp) (d : Delimiter) : Delimiter :=
  {| token := token d; stop := {| re := regexpr; str := [] |} |}.

Definition SetStopStr (s : bytes) (d : Delimiter) : Delimiter :=
  {| token := token d; stop := {| re := None; str := s |} |}.

Definition SetStopRegexpFromString (expr : bytes) (d : Delimiter) : result Delimiter :=
  if is_empty expr then Panic "empty regexp is not allowed"
  else match MustCompile expr with
       | Some regexpr => Ret {| token := token d; stop := {| re := Some regexpr; str := [] |} |}
       | None => Panic "regexp: Compile: error parsing regexp"
       end.

(** Builders (value receivers): the copy with one pattern replaced. *)
Definition WithTokenRegexp (regexpr : option Regexp) (d : Delimiter) : Delimiter :=
  {| token := {| re := regexpr; str := [] |}; stop := stop d |}.

Definition WithTokenStr (s : bytes) (d : Delimiter) : Delimiter :=
  {| token := {| re := None; str := s |}; stop := stop d |}.

Definition WithTokenRegexpFromString (s : bytes) (d : Delimiter) : result Delimiter :=
  if is_empty s then Panic "empty regexp is not allowed"
  else match MustCompile s with
       | Some regexpr => Ret {| token := {| re := Some regexpr; str := [] |}; stop := stop d |}
       | None => Panic "regexp: Compile: error parsing regexp"
       end.

Definition WithStopRegexp (regexpr : option Regexp) (d : Delimiter) : Delimiter :=
  {| token := token d; stop := {| re := regexpr; str := [] |} |}.

Definition WithStopStr (s : bytes) (d : Delimiter) : Delimiter :=
  {| token := token d; stop := {| re := None; str := s |} |}.

Definition WithStopRegexpFromString (s : bytes) (d : Delimiter) : result Delimiter :=
  if is_empty s then Panic "empty regexp is not allowed"
  else match MustCompile s with
       | Some regexpr => Ret {| token := token d; stop := {| re := Some regexpr; str := [] |} |}
       | None => Panic "regexp: Compile: error parsing regexp"
       end.

(** p.enabled() *)
Definition enabled (p : pattern) : bool :=
  notnil (re p) || negb (is_empty (str p)).

(** p.find(data) for a *pattern p ([None] is the nil pointer):
    (idx, width), with idx = -1 when there is no match. *)
Definition find (p : option pattern) (data : bytes) : Z * Z :=
  match p with
  | None => (-1, 0)
  | Some p =>
      match re p with
      | Some regexpr =>
          match FindIndex regexpr data with
          | None => (-1, 0)
          | Some (lo, hi) => (lo, hi - lo)
          end
      | None =>
          if negb (is_empty (str p)) then
            let idx := Index data (str p) in
            if idx <? 0 then (-1, 0) else (idx, len (str p))
          else (-1, 0)
      end
  end.

Definition SplitFunc (d : Delimiter) : SplitFunc := fun data atEOF =>
  (* Nothing left *)
  if atEOF && is_empty data then Split 0 None (Some ErrFinalToken)
  else
    (* Locate delimiters *)
    let '(tokenIdx, tokenW) := find (Some (token d)) data in
    let '(stopIdx, stopW) :=
      if enabled (stop d) then find (Some (stop d)) data else (-1, 0) in
    if (0 <=? stopIdx) && ((tokenIdx <? 0) || (stopIdx <? tokenIdx)) then
      (* Return data before stop as final token *)
      if 0 <? stopIdx then Split stopIdx (Some (upto data stopIdx)) None
      (* Stop delimiter at beginning: consume and stop *)
      else Split stopW None (Some ErrFinalToken)
    else if 0 <=? tokenIdx then
      Split (tokenIdx + tokenW) (Some (upto data tokenIdx)) None
    else if atEOF then Split (len data) (Some data) None
    (* Need more data *)
    else Split 0 None None.

(** The tokens a scanner yields with the split function [split], scanning
    until Scan returns false (at most [fuel] tokens). *)
Fixpoint scan_all (fuel : nat) (split : bufio.SplitFunc) (sc : Scanner)
    : result (list bytes) :=
  match fuel with
  | O => OutOfFuel
  | S fuel' =>
      match Scan split sc with
      | Ret (true, sc') =>
          match scan_all fuel' split sc' with
          | Ret l => Ret (Text sc' :: l)
          | other => other
          end
      | Ret (false, _) => Ret []
      | Panic m => Panic m
      | Blocked => Blocked
      | OutOfFuel => OutOfFuel
      end
  end.

End Delimiter.
End stopdelim.

(** ** The Delimiter with one pattern *)

Module delimiter.
Import bufio.

Section Delimiter.
Context {engine : RegexpEngine}.

(** By construction, [regexpr] and [str] are not set at the same time. *)
Record Delimiter := mkDelimiter {
  regexpr : option Regexp;
  str : bytes
}.

Definition DefaultDelimiter : Delimiter := {| regexpr := None; str := [newline] |}.

Definition SetRegexp (re : option Regexp) (d : Delimiter) : result Delimiter :=
  match re with
  | None =>
      match MustCompile [newline] with
      | Some nl => Ret {| regexpr := Some nl; str := [] |}
      | None => Panic "regexp: Compile: error parsing regexp"
      end
  | Some _ => Ret {| regexpr := re; str := [] |}
  end.

Definition SetStr (s : bytes) (d : Delimiter) : Delimiter :=
  let s := if is_empty s then [newline] else s in
  {| regexpr := None; str := s |}.

Definition SetRegexpFromString (expr : bytes) (d : Delimiter) : result Delimiter :=
  match MustCompile expr with
  | Some re => Ret {| regexpr := Some re; str := [] |}
  | None => Panic "regexp: Compile: error parsing regexp"
  end.

(** newD := *d; newD.Set...(x); return &newD *)
Definition WithRegexp (re : option Regexp) (d : Delimiter) : result Delimiter :=
  SetRegexp re d.
Definition WithStr (s : bytes) (d : Delimiter) : Delimiter := SetStr s d.
Definition WithRegexpFromString (s : bytes) (d : Delimiter) : result Delimiter :=
  SetRegexpFromString s d.

Definition SplitFunc (d : Delimiter) : SplitFunc := fun data atEOF =>
  if atEOF && is_empty data then Split 0 None None
  else
    let matched :=
      match regexpr d with
      | Some re =>
          match FindIndex re data with
          | Some (lo, hi) => Some (Split hi (Some (upto data lo)) None)
          | None => None
          end
      | None =>
          if negb (is_empty (str d)) then
            let '(prefix, _, found) := Cut data (str d) in
            if found
            then Some (Split (len prefix + len (str d)) (Some prefix) None)
            else None
          else Some (SplitPanic
            "delimiterStr and delimiter fields are both empty. This should not happen !")
      end in
    match matched with
    | Some res => res
    | None =>
        if atEOF then Split (len data) (Some data) None
        else Split 0 None None
    end.

Definition MatchString (d : Delimiter) (s : bytes) : result bool :=
  match regexpr d with
  | Some re => Ret (MatchString re s)
  | None =>
      if negb (is_empty (str d)) then Ret (Contains s (str d))
      else Panic "regexpr and str cannot be both nil !"
  end.

(** The Delimiters the constructor and the methods can produce. *)
Inductive reachable : Delimiter -> Prop :=
| reach_Default : reachable DefaultDelimiter
| reach_SetRegexp re d d' :
    reachable d -> SetRegexp re d = Ret d' -> reachable d'
| reach_SetStr s d : reachable d -> reachable (SetStr s d)
| reach_SetRegexpFromString expr d d' :
    reachable d -> SetRegexpFromString expr d = Ret d' -> reachable d'.

End Delimiter.
End delimiter.

(** ** The ReaderCloser and the Reader it embeds *)

Module readercloser.
Import bufio.

(** The closeable resources of the environment: what closing resource [c]
    does and returns, and what os.Open finds at a path (the file as a
    resource and its bytes, or the error). *)
Class Resources := {
  World : Type;
  close : nat -> World -> World * option error;
  open : bytes -> World -> World * (nat * Source + error)
}.

Section ReaderCloser.
Context {engine : RegexpEngine} {resources : Resources}.

Record Reader := mkReader {
  reader : Source;
  delimiter : option delimiter.Delimiter;
  endDelimiter : option delimiter.Delimiter;
  normalize : option NormalizeFunc;
  filter : option FilterFunc;
  FailOnError : bool;
  FailOnInvalid : bool
}.

Definition NewReader (stdin : Source) : Reader :=
  {| reader := stdin; delimiter := Some delimiter.DefaultDelimiter;
     endDelimiter := None; normalize := Some NormalizeTrimSpace; filter := None;
     FailOnError := true; FailOnInvalid := false |}.

(** The Reader's setters, as the change made to the pointee. *)
Definition Reader_SetReaders (readers : list Source) (r : Reader) : Reader :=
  {| reader := MultiReader readers; delimiter := delimiter r;
     endDelimiter := endDelimiter r; normalize := normalize r; filter := filter r;
     FailOnError := FailOnError r; FailOnInvalid := FailOnInvalid r |}.

Definition Reader_SetDelimiter (d : option delimiter.Delimiter) (r : Reader) : Reader :=
  {| reader := reader r; delimiter := d;
     endDelimiter := endDelimiter r; normalize := normalize r; filter := filter r;
     FailOnError := FailOnError r; FailOnInvalid := FailOnInvalid r |}.

Definition Reader_SetEndDelimiter (d : option delimiter.Delimiter) (r : Reader) : Reader :=
  {| reader := reader r; delimiter := delimiter r;
     endDelimiter := d; normalize := normalize r; filter := filter r;
     FailOnError := FailOnError r; FailOnInvalid := FailOnInvalid r |}.

Definition Reader_SetNormalizer (f : option NormalizeFunc) (r : Reader) : Reader :=
  {| reader := reader r; delimiter := delimiter r;
     endDelimiter := endDelimiter r; normalize := f; filter := filter r;
     FailOnError := FailOnError r; FailOnInvalid := FailOnInvalid r |}.

Definition Reader_SetFilter (f : option FilterFunc) (r : Reader) : Reader :=
  {| reader := reader r; delimiter := delimiter r;
     endDelimiter := endDelimiter r; normalize := normalize r; filter := f;
     FailOnError := FailOnError r; FailOnInvalid := FailOnInvalid r |}.

(** An io.Reader handed to SetReaders: its bytes and, when it is an
    io.Closer as well, the resource to close. *)
Record Input := mkInput {
  in_source : Source;
  in_closer : option nat
}.

(** struct { *Reader; closers []io.Closer } *)
Record ReaderCloser := mkReaderCloser {
  Reader_ptr : option nat;
  closers : list nat
}.

(** The memory the methods work on: the Readers and the ReaderClosers behind
    pointers, and the resources. *)
Record State := mkState {
  readers : gmap nat Reader;
  rcs : gmap nat ReaderCloser;
  world : World
}.

Definition nil_deref {A} : result A :=
  Panic "invalid memory address or nil pointer dereference".

(** NewReaderCloser: a fresh Reader and a ReaderCloser pointing to it. *)
Definition NewReaderCloser (stdin : Source) (st : State) : nat * State :=
  let p := fresh (dom (readers st)) in
  let q := fresh (dom (rcs st)) in
  (q, {| readers := <[p := NewReader stdin]> (readers st);
         rcs := <[q := {| Reader_ptr := Some p; closers := [] |}]> (rcs st);
         world := world st |}).

(** The loop of Close over rc.closers. *)
Fixpoint Close_loop (caller : CallSite) (cs : list nat) (w : World)
    (firstErr : option error) : World * option error :=
  match cs with
  | [] => (w, firstErr)
  | c :: cs' =>
      let '(w', err) := close c w in
      match err, firstErr with
      | Some e, None => Close_loop caller cs' w' (Some (newErrClose caller e))
      | _, _ => Close_loop caller cs' w' firstErr
      end
  end.

(** rc.Close() *)
Definition Close (caller : CallSite) (rc : nat) (st : State)
    : result (option error * State) :=
  match rcs st !! rc with
  | None => nil_deref
  | Some v =>
      let '(w', firstErr) := Close_loop caller (closers v) (world st) None in
      Ret (firstErr,
           {| readers := readers st;
              rcs := <[rc := {| Reader_ptr := Reader_ptr v; closers := [] |}]> (rcs st);
              world := w' |})
  end.

(** rc.SetReaders(readers...) *)
Definition SetReaders (caller : CallSite) (rs : list Input) (rc : nat) (st : State)
    : result State :=
  match Close caller rc st with
  | Ret (_, st1) =>
      match rcs st1 !! rc with
      | None => nil_deref
      | Some v =>
          let cs := omap in_closer rs in
          match Reader_ptr v with
          | None => nil_deref
          | Some p =>
              match readers st1 !! p with
              | None => nil_deref
              | Some _ =>
                  Ret {| readers := alter (Reader_SetReaders (map in_source rs)) p (readers st1);
                         rcs := <[rc := {| Reader_ptr := Reader_ptr v; closers := cs |}]> (rcs st1);
                         world := world st1 |}
              end
          end
      end
  | Panic m => Panic m
  | Blocked => Blocked
  | OutOfFuel => OutOfFuel
  end.

(** A method promoted from the embedded *Reader: it updates the Reader the
    ReaderCloser points to. *)
Definition promoted (f : Reader -> Reader) (rc : nat) (st : State) : result State :=
  match rcs st !! rc with
  | None => nil_deref
  | Some v =>
      match Reader_ptr v with
      | None => nil_deref
      | Some p =>
          match readers st !! p with
          | None => nil_deref
          | Some _ =>
              Ret {| readers := alter f p (readers st); rcs := rcs st; world := world st |}
          end
      end
  end.

Definition SetDelimiter (d : option delimiter.Delimiter) := promoted (Reader_SetDelimiter d).
Definition SetNormalizer (n : option NormalizeFunc) := promoted (Reader_SetNormalizer n).
Definition SetFilter (f : option FilterFunc) := promoted (Reader_SetFilter f).

(** newR := *rc; newR.method(...); return &newR *)
Definition copy_then (method : nat -> State -> result State) (rc : nat) (st : State)
    : result (nat * State) :=
  match rcs st !! rc with
  | None => nil_deref
  | Some v =>
      let q := fresh (dom (rcs st)) in
      match method q {| readers := readers st; rcs := <[q := v]> (rcs st);
                        world := world st |} with
      | Ret st' => Ret (q, st')
      | Panic m => Panic m
      | Blocked => Blocked
      | OutOfFuel => OutOfFuel
      end
  end.

Definition FromString (caller : CallSite) (s : bytes) :=
  copy_then (SetReaders caller [ {| in_source := bufio.NewReader s; in_closer := None |} ]).

Definition FromBytes (caller : CallSite) (b : bytes) :=
  copy_then (SetReaders caller [ {| in_source := bufio.NewReader b; in_closer := None |} ]).

Definition FromFile (caller : CallSite) (path : bytes) (rc : nat) (st : State)
    : result (option nat * option error * State) :=
  match open path (world st) with
  | (w, inr err) =>
      Ret (None, Some (newErrOpen caller err),
           {| readers := readers st; rcs := rcs st; world := w |})
  | (w, inl (file, contents)) =>
      match copy_then (SetReaders caller
                         [ {| in_source := contents; in_closer := Some file |} ]) rc
                      {| readers := readers st; rcs := rcs st; world := w |} with
      | Ret (q, st') => Ret (Some q, None, st')
      | Panic m => Panic m
      | Blocked => Blocked
      | OutOfFuel => OutOfFuel
      end
  end.

Definition WithDelimiter (d : option delimiter.Delimiter) := copy_then (SetDelimiter d).
Definition WithNormalizer (n : option NormalizeFunc) := copy_then (SetNormalizer n).
Definition WithFilter (f : option FilterFunc) := copy_then (SetFilter f).
Definition WithReaders (caller : CallSite) (rs : list Input) :=
  copy_then (SetReaders caller rs).

(** The configuration seen through a ReaderCloser pointer: the Reader it
    points to and the resources it tracks. *)
Definition config (rc : nat) (st : State) : option (Reader * list nat) :=
  v ← rcs st !! rc;
  p ← Reader_ptr v;
  r ← readers st !! p;
  Some (r, closers v).

(** Closing every resource of a list in turn, with each result. *)
Fixpoint close_each (cs : list nat) (w : World) : World * list (option error) :=
  match cs with
  | [] => (w, [])
  | c :: cs' =>
      let '(w1, e) := close c w in
      let '(w2, es) := close_each cs' w1 in
      (w2, e :: es)
  end.

(** The first failure among results. *)
Fixpoint first_failure (es : list (option error)) : option error :=
  match es with
  | [] => None
  | Some e :: _ => Some e
  | None :: es' => first_failure es'
  end.

End ReaderCloser.

(** Files as resources: closing a file that is closed already fails, and
    so does closing one whose device fails; every attempt is logged. *)
Record Files := mkFiles {
  fs : list (bytes * bytes);     (* path and contents *)
  closed : list nat;
  failing : list nat;
  attempts : list nat
}.

Definition close_file (c : nat) (w : Files) : Files * option error :=
  let w' := {| fs := fs w; closed := c :: closed w; failing := failing w;
               attempts := attempts w ++ [c] |} in
  if bool_decide (c ∈ closed w) then
    ({| fs := fs w; closed := closed w; failing := failing w;
        attempts := attempts w ++ [c] |}, Some (Cause "file already closed"))
  else if bool_decide (c ∈ failing w) then (w', Some (Cause "input/output error"))
  else (w', None).

Fixpoint lookup_path (path : bytes) (i : nat) (l : list (bytes * bytes))
    : option (nat * bytes) :=
  match l with
  | [] => None
  | (p, c) :: l' => if bytes_eqb p path then Some (i, c) else lookup_path path (S i) l'
  end.

Definition open_file (path : bytes) (w : Files) : Files * (nat * Source + error) :=
  match lookup_path path 0 (fs w) with
  | Some (i, c) => (w, inl (i, bufio.NewReader c))
  | None => (w, inr (Cause "no such file or directory"))
  end.

Definition files : Resources :=
  {| World := Files; close := close_file; open := open_file |}.

End readercloser.

(** * Properties *)

(** ** Slices *)

Lemma is_empty_true {A} (l : list A) : is_empty l = true <-> l = [].
Proof. destruct l; simpl; split; congruence. Qed.

Lemma is_empty_false {A} (l : list A) : is_empty l = false <-> l <> [].
Proof. destruct l; simpl; split; congruence. Qed.

Lemma len_nonneg {A} (l : list A) : 0 <= len l.
Proof. unfold len. lia. Qed.

Lemma len_pos {A} (l : list A) : l <> [] -> 0 < len l.
Proof. destruct l; [done|]. unfold len. simpl. lia. Qed.

Lemma len_upto {A} (l : list A) (i : Z) : 0 <= i <= len l -> len (upto l i) = i.
Proof. unfold len, upto. intros H. rewrite length_take. lia. Qed.

Lemma length_from {A} (l : list A) (i : Z) :
  length (from l i) = (length l - Z.to_nat i)%nat.
Proof. unfold from. by rewrite length_drop. Qed.

Lemma from_0 {A} (l : list A) : from l 0 = l.
Proof. done. Qed.

Lemma from_len {A} (l : list A) : from l (len l) = [].
Proof. unfold from, len. rewrite Nat2Z.id. apply drop_all. Qed.

Lemma upto_0 {A} (l : list A) : upto l 0 = [].
Proof. done. Qed.

Lemma upto_nonempty {A} (l : list A) (i : Z) : 0 < i -> l <> [] -> upto l i <> [].
Proof.
  unfold upto. intros Hi Hl. destruct l as [|x l]; [done|].
  destruct (Z.to_nat i) eqn:E; [lia | done].
Qed.

(** ** reader.go: the scanner and the read loops *)

Module reader_scan.
Import bufio reader.

(** The reference split of [data] on a boundary recogniser [find]: the text
    before each successive earliest match, the search resuming after the
    match (one byte further when the match consumed nothing); no empty
    final token after a trailing delimiter. *)
Fixpoint split_on (find : bytes -> option (Z * Z)) (fuel : nat) (data : bytes)
    : list bytes :=
  match fuel with
  | O => []
  | S fuel' =>
      if is_empty data then []
      else match find data with
           | Some (lo, hi) => upto data lo :: split_on find fuel' (from data (Z.max 1 hi))
           | None => [data]
           end
  end.

Definition reference_split (find : bytes -> option (Z * Z)) (data : bytes) : list bytes :=
  split_on find (length data) data.

(** The tokens up to the first empty one. *)
Fixpoint before_empty (l : list bytes) : list bytes :=
  match l with
  | [] => []
  | t :: l' => if is_empty t then [] else t :: before_empty l'
  end.

(** Total length of a list of tokens. *)
Definition sum_len (l : list bytes) : Z := fold_right (fun t a => len t + a) 0 l.

(** The tokens a scanner yields one after the other: [Scans split s toks s']
    when successive calls of Scan from the state [s] return true with the
    tokens [toks] and leave the scanner in [s']. *)
Inductive Scans (split : SplitFunc) : Scanner -> list bytes -> Scanner -> Prop :=
| Scans_nil s : Scans split s [] s
| Scans_cons s s1 s2 toks :
    Scan split s = Ret (true, s1) -> Scans split s1 toks s2 ->
    Scans split s (Text s1 :: toks) s2.

(** The bytes a scanner has not consumed: buffered or still in the source. *)
Definition pending (s : Scanner) : bytes := buf s ++ concat (r s).

Section Scan.
Context {engine : RegexpEngine}.

(** A token boundary is configured: a compiled pattern or a literal. *)
Definition configured (r : Reader) : Prop :=
  delimiter r <> None \/ delimiterStr r <> [].

(** The earliest match of the configured boundary in [data]. *)
Definition boundary (r : Reader) (data : bytes) : option (Z * Z) :=
  match delimiter r with
  | Some re => FindIndex re data
  | None =>
      let i := Index data (delimiterStr r) in
      if 0 <=? i then Some (i, i + len (delimiterStr r)) else None
  end.

(** Of the raw tokens [raw], those that come out: normalized, and not
    refused by the filter. *)
Definition kept (r : Reader) (raw : list bytes) : list bytes :=
  List.filter (fun t => negb (refused r t)) (map (normalized r) raw).

(** Of the raw tokens [raw], those the filter refuses. *)
Definition skipped (r : Reader) (raw : list bytes) : list bytes :=
  List.filter (refused r) (map (normalized r) raw).

(** No token of [raw] ends the call with an Invalid error: a refused token
    is skipped. *)
Definition no_fatal (r : Reader) (raw : list bytes) : Prop :=
  Forall (fun t => refused r (normalized r t) = true -> FailOnInvalid r = false) raw.

(** The source of [r] hands over [input] and then ends: in any number of
    non-empty reads when the boundary is a literal, in one read at most
    when it is a compiled pattern; [input] fits the scanner's buffer. *)
Definition reads (r : Reader) (input : bytes) : Prop :=
  final (reader r) = EOF /\
  Forall (fun c => c <> []) (chunks (reader r)) /\
  concat (chunks (reader r)) = input /\
  (delimiter r = None \/ (length (chunks (reader r)) <= 1)%nat) /\
  len input < MaxScanTokenSize.

(** *** The reference split *)

Lemma split_on_enough find fuel1 fuel2 data :
  (length data <= fuel1)%nat -> (length data <= fuel2)%nat ->
  split_on find fuel1 data = split_on find fuel2 data.
Proof.
  revert fuel2 data.
  induction fuel1 as [|fuel1 IH]; intros fuel2 data H1 H2.
  - destruct data; [by destruct fuel2 | simpl in H1; lia].
  - destruct data as [|c data]; [by destruct fuel2|].
    destruct fuel2 as [|fuel2]; [simpl in H2; lia|].
    cbn [split_on is_empty]. destruct (find (c :: data)) as [[lo hi]|]; [|done].
    f_equal. apply IH; rewrite length_from; simpl in *; lia.
Qed.

Lemma split_on_fuel find fuel data :
  (length data <= fuel)%nat -> split_on find fuel data = reference_split find data.
Proof. intros. by apply split_on_enough. Qed.

Lemma reference_split_nil find : reference_split find [] = [].
Proof. done. Qed.

Lemma reference_split_match find data lo hi :
  data <> [] -> find data = Some (lo, hi) ->
  reference_split find data = upto data lo :: reference_split find (from data (Z.max 1 hi)).
Proof.
  intros Hne Hf. unfold reference_split at 1.
  destruct data as [|c data]; [done|].
  change (length (c :: data)) with (S (length data)).
  cbn [split_on is_empty]. rewrite Hf. f_equal.
  apply split_on_fuel. rewrite length_from. simpl. lia.
Qed.

Lemma reference_split_nomatch find data :
  data <> [] -> find data = None -> reference_split find data = [data].
Proof.
  intros Hne Hf. unfold reference_split.
  destruct data as [|c data]; [done|].
  change (length (c :: data)) with (S (length data)).
  cbn [split_on is_empty]. by rewrite Hf.
Qed.


Lemma before_empty_nonempty l : Forall (fun t => t <> []) (before_empty l).
Proof.
  induction l as [|t l IH]; simpl; [constructor|].
  destruct (is_empty t) eqn:Ht; [constructor|].
  constructor; [by apply is_empty_false | done].
Qed.

Lemma sum_len_app l1 l2 : sum_len (l1 ++ l2) = sum_len l1 + sum_len l2.
Proof. induction l1 as [|t l1 IH]; simpl; [done | rewrite IH; lia]. Qed.

(** Every token that reaches the filter is kept or skipped. *)
Lemma sum_len_kept_skipped r raw :
  sum_len (map (normalized r) raw) = sum_len (kept r raw) + sum_len (skipped r raw).
Proof.
  unfold kept, skipped. induction raw as [|t raw IH]; simpl; [done|].
  destruct (refused r (normalized r t)); simpl; lia.
Qed.



Lemma boundary_bounds r data lo hi :
  boundary r data = Some (lo, hi) -> 0 <= lo <= hi /\ hi <= len data.
Proof.
  unfold boundary. destruct (delimiter r) as [re|].
  - apply FindIndex_bounds.
  - destruct (0 <=? Index data (delimiterStr r)) eqn:Hi; [|done].
    intros [= <- <-]. apply Z.leb_le in Hi.
    pose proof (Index_bounds data (delimiterStr r) Hi).
    pose proof (len_nonneg (delimiterStr r)). lia.
Qed.

(** A literal boundary found in the bytes read so far is the earliest one
    of the whole input. *)
Lemma boundary_app r data rest lo hi :
  delimiter r = None \/ rest = [] ->
  boundary r data = Some (lo, hi) -> boundary r (data ++ rest) = Some (lo, hi).
Proof.
  intros [Hd | ->]; [|by rewrite app_nil_r].
  unfold boundary. rewrite Hd.
  destruct (0 <=? Index data (delimiterStr r)) eqn:Hi; [|done].
  apply Z.leb_le in Hi. rewrite Index_app by done.
  apply Z.leb_le in Hi. by rewrite Hi.
Qed.

(** The split function of a Reader with a configured boundary. *)
Lemma createSplitFunc_configured r data atEOF :
  configured r ->
  createSplitFunc r data atEOF =
    if atEOF && is_empty data then Split 0 None None
    else match boundary r data with
         | Some (lo, hi) => Split hi (Some (upto data lo)) None
         | None => if atEOF then Split (len data) (Some data) None
                   else Split 0 None None
         end.
Proof.
  intros Hc. unfold createSplitFunc, boundary.
  destruct (delimiter r) as [re|] eqn:Hd.
  - destruct (atEOF && is_empty data); [done|].
    by destruct (FindIndex re data) as [[lo hi]|].
  - destruct Hc as [Hc|Hc]; [done|].
    apply is_empty_false in Hc. rewrite Hc.
    destruct (atEOF && is_empty data); [done|]. simpl.
    unfold Cut. destruct (0 <=? Index data (delimiterStr r)) eqn:Hi; [|done].
    apply Z.leb_le in Hi. pose proof (Index_bounds data (delimiterStr r) Hi).
    pose proof (len_nonneg (delimiterStr r)).
    rewrite len_upto by lia. done.
Qed.

(** *** The loops along a run of the scanner *)

Lemma Scans_app split s0 toks1 s1 toks2 s2 :
  Scans split s0 toks1 s1 -> Scans split s1 toks2 s2 ->
  Scans split s0 (toks1 ++ toks2) s2.
Proof.
  induction 1 as [|s s1 s1' toks HS _ IH]; intros H2; [done|].
  simpl. econstructor; [done | by apply IH].
Qed.

Lemma Scans_cons_eq split s s1 s2 t toks :
  Scan split s = Ret (true, s1) -> Text s1 = t -> Scans split s1 toks s2 ->
  Scans split s (t :: toks) s2.
Proof. intros HS <- H. by econstructor. Qed.

(** While the scanner yields non-empty tokens none of which is fatal, the
    loop of ReadTokens goes round, adding the length of every token to the
    counter and the tokens that are kept to the result. *)
Lemma ReadTokens_loop_Scans caller r s0 pre s1 :
  Scans (createSplitFunc r) s0 pre s1 ->
  Forall (fun t => t <> []) pre -> no_fatal r pre ->
  forall fuel n acc,
    ReadTokens_loop (length pre + fuel) caller r s0 n acc =
    ReadTokens_loop fuel caller r s1 (n + sum_len (map (normalized r) pre))
                    (acc ++ kept r pre).
Proof.
  induction 1 as [s|s s1 s2 toks HS _ IH]; intros Hne Hnf fuel n acc.
  - simpl. by rewrite Z.add_0_r, app_nil_r.
  - apply Forall_cons in Hne as [Ht Hne]. apply Forall_cons in Hnf as [Hft Hnf].
    apply is_empty_false in Ht.
    change (length (Text s1 :: toks) + fuel)%nat with (S (length toks + fuel)).
    cbn [ReadTokens_loop]. rewrite HS, Ht. unfold kept. simpl.
    destruct (refused r (normalized r (Text s1))) eqn:Href; simpl.
    + rewrite (Hft eq_refl). rewrite IH by done. f_equal. lia.
    + rewrite IH by done. unfold kept. rewrite <- app_assoc. simpl. f_equal. lia.
Qed.


(** *** One pass of Scan with a configured boundary *)

(** Nothing buffered and no error pending: no token, no change. *)
Lemma try_split_idle split s :
  buf s = [] -> err s = None -> try_split split s = More s.
Proof. intros Hb He. unfold try_split. by rewrite Hb, He. Qed.

(** A boundary in the buffer: the text before it is the token. *)
Lemma try_split_match r s lo hi :
  configured r -> err s = None -> buf s <> [] ->
  boundary r (buf s) = Some (lo, hi) ->
  try_split (createSplitFunc r) s =
    Done_ (Ret (true, {| r := bufio.r s; r_final := r_final s;
                         buf := from (buf s) hi; tok := Some (upto (buf s) lo);
                         err := None; empties := 0; done := done s |})).
Proof.
  intros Hc He Hb Hm. pose proof (boundary_bounds _ _ _ _ Hm) as [Hlo Hhi].
  apply is_empty_false in Hb.
  assert (Hlt : (hi <? 0) = false) by lia.
  assert (Hgt : (len (buf s) <? hi) = false) by lia.
  unfold try_split. rewrite Hb, He. simpl.
  rewrite createSplitFunc_configured by done.
  simpl. rewrite Hm. simpl. by rewrite Hlt, Hgt.
Qed.

(** No boundary in the buffer and the source not at its end: more data is
    asked for. *)
Lemma try_split_nomatch r s :
  configured r -> err s = None -> buf s <> [] ->
  boundary r (buf s) = None ->
  try_split (createSplitFunc r) s =
    More {| r := bufio.r s; r_final := r_final s; buf := buf s; tok := None;
            err := None; empties := empties s; done := done s |}.
Proof.
  intros Hc He Hb Hm. apply is_empty_false in Hb.
  assert (Hlt : (len (buf s) <? 0) = false) by (pose proof (len_nonneg (buf s)); lia).
  unfold try_split. rewrite Hb, He. simpl.
  rewrite createSplitFunc_configured by done.
  simpl. rewrite Hm. simpl. by rewrite Hlt.
Qed.

(** No boundary in the buffer and the source at its end: the rest of the
    buffer is the last token. *)
Lemma try_split_rest r s e :
  configured r -> err s = Some e -> buf s <> [] ->
  boundary r (buf s) = None ->
  try_split (createSplitFunc r) s =
    Done_ (Ret (true, {| r := bufio.r s; r_final := r_final s; buf := [];
                         tok := Some (buf s); err := Some e; empties := 0;
                         done := done s |})).
Proof.
  intros Hc He Hb Hm. pose proof (len_pos _ Hb) as Hpos.
  apply is_empty_false in Hb.
  assert (Hlt : (len (buf s) <? 0) = false) by lia.
  assert (Hgt : (len (buf s) <? len (buf s)) = false) by lia.
  assert (Hp : (0 <? len (buf s)) = true) by lia.
  unfold try_split. rewrite Hb, He. simpl.
  rewrite createSplitFunc_configured by done.
  rewrite Hb, Hm. simpl. rewrite Hlt, Hgt, Hp, from_len. done.
Qed.

(** Nothing buffered and the source at its end: no token. *)
Lemma try_split_end r s e :
  configured r -> err s = Some e -> buf s = [] ->
  try_split (createSplitFunc r) s =
    More {| r := bufio.r s; r_final := r_final s; buf := []; tok := None;
            err := Some e; empties := empties s; done := done s |}.
Proof.
  intros Hc He Hb. unfold try_split. rewrite Hb, He. simpl.
  by rewrite createSplitFunc_configured.
Qed.

(** A pass that yields no token leaves the source and the error alone. *)
Lemma try_split_More split s s' :
  try_split split s = More s' -> r s' = r s /\ err s' = err s.
Proof.
  unfold try_split.
  intros Hs. repeat case_match; try done; by injection Hs as <-.
Qed.

(** *** What every call of Scan keeps, for a configured boundary

    The scanner is not done, counts no empty token, and once its error is
    set the buffer holds no boundary: an empty token is never yielded with
    an error pending, and a non-empty token always consumes input. *)

Definition steady (r : Reader) (s : Scanner) : Prop :=
  done s = false /\ empties s = 0%nat /\
  (err s = None \/ buf s = [] \/ boundary r (buf s) = None).

Lemma steady_NewScanner r src : steady r (NewScanner src).
Proof. repeat split; auto. Qed.

(** The outcome of a call of Scan that is of use to the loops. *)
Definition scanned (r : Reader) (bound : nat) (res : result (bool * Scanner)) : Prop :=
  exists b s', res = Ret (b, s') /\
    (b = true ->
       steady r s' /\ (Text s' = [] -> err s' = None) /\
       (length (pending s') <= bound)%nat /\
       (Text s' <> [] -> (length (pending s') < bound)%nat)).

Lemma try_split_steady r s :
  configured r -> steady r s ->
  match try_split (createSplitFunc r) s with
  | Done_ res => scanned r (length (pending s)) res
  | More s' =>
      buf s' = buf s /\ r_final s' = r_final s /\ done s' = false /\
      empties s' = 0%nat /\ (buf s = [] \/ boundary r (buf s) = None)
  end.
Proof.
  intros Hc (Hd & He & Hinv).
  destruct (err s) as [e|] eqn:Herr.
  - destruct (decide (buf s = [])) as [Hb|Hb].
    + rewrite (try_split_end r s e) by done. simpl. rewrite Hb. repeat split; auto.
    + destruct Hinv as [?|[?|Hm]]; [done | done |].
      rewrite (try_split_rest r s e) by done.
      eexists _, _. split; [reflexivity|]. intros _. simpl.
      split; [repeat split; auto|]. split; [done|].
      unfold pending. simpl. rewrite !length_app.
      assert (0 < length (buf s))%nat by (destruct (buf s); simpl; [done | lia]).
      split; lia.
  - destruct (decide (buf s = [])) as [Hb|Hb].
    + rewrite try_split_idle by done. repeat split; auto.
    + destruct (boundary r (buf s)) as [[lo hi]|] eqn:Hm.
      * pose proof (boundary_bounds _ _ _ _ Hm) as [Hlo Hhi].
        rewrite (try_split_match r s lo hi) by done.
        eexists _, _. split; [reflexivity|]. intros _. simpl.
        split; [repeat split; auto|]. split; [done|].
        unfold pending. simpl. rewrite !length_app, length_from.
        split; [lia|]. intros Ht.
        assert (0 < hi).
        { destruct (decide (lo = 0)) as [->|]; [|lia]. by rewrite upto_0 in Ht. }
        assert (0 < length (buf s))%nat by (destruct (buf s); simpl; [done | lia]).
        lia.
      * rewrite (try_split_nomatch r s) by done. simpl. repeat split; auto.
Qed.

Lemma pass_at_err_steady r s e :
  configured r -> done s = false -> empties s = 0%nat -> err s = Some e ->
  (buf s = [] \/ boundary r (buf s) = None) ->
  scanned r (length (pending s)) (pass_at_err (createSplitFunc r) s).
Proof.
  intros Hc Hd He Herr Hb. unfold pass_at_err.
  pose proof (try_split_steady r s Hc) as H.
  destruct (try_split (createSplitFunc r) s) as [res|s'].
  - apply H. repeat split; auto.
  - eexists _, _. split; [reflexivity | done].
Qed.

Lemma scanned_le r n m res : (n <= m)%nat -> scanned r n res -> scanned r m res.
Proof.
  intros Hnm (b & s' & -> & H). exists b, s'. split; [done|].
  intros Hb. destruct (H Hb) as (Hs & Ht0 & Hle & Hlt).
  split; [done|]. split; [done|]. split; [lia|].
  intros Ht. specialize (Hlt Ht). lia.
Qed.

Lemma read_more_steady r :
  configured r ->
  forall src loop s,
    done s = false -> empties s = 0%nat -> err s = None ->
    (buf s = [] \/ boundary r (buf s) = None) ->
    scanned r (length (buf s) + length (concat src))
            (read_more (createSplitFunc r) src loop s).
Proof.
  intros Hc. induction src as [|c src IH]; intros loop s Hd He Herr Hb;
    cbn [read_more]; (destruct (MaxScanTokenSize <=? len (buf s));
      [eexists _, _; split; [reflexivity | done]|]).
  - unfold setErr. simpl. rewrite Herr.
    eapply scanned_le; [|apply (pass_at_err_steady r _ (r_final s)); auto].
    unfold pending. simpl. rewrite length_app. simpl. lia.
  - destruct (is_empty c) eqn:Hc0.
    + apply is_empty_true in Hc0. subst c. simpl.
      destruct (maxConsecutiveEmptyReads <? S loop)%nat.
      * unfold setErr. simpl. rewrite Herr.
        eapply scanned_le; [|apply (pass_at_err_steady r _ ErrNoProgress); auto].
        unfold pending. simpl. rewrite length_app. lia.
      * by apply IH.
    + set (s1 := {| r := src; r_final := r_final s; buf := buf s ++ c; tok := tok s;
                    err := err s; empties := 0; done := done s |}).
      assert (Hs1 : steady r s1) by (repeat split; auto).
      pose proof (try_split_steady r s1 Hc Hs1) as H.
      pose proof (try_split_More (createSplitFunc r) s1) as HM.
      destruct (try_split (createSplitFunc r) s1) as [res|s2].
      * eapply scanned_le; [|exact H].
        unfold pending, s1. simpl. rewrite !length_app. lia.
      * destruct H as (Hb2 & Hf2 & Hd2 & He2 & Hm2).
        destruct (HM s2 eq_refl) as [Hr2 Herr2]. simpl in Herr2.
        rewrite Herr2, Herr.
        eapply scanned_le; [|apply IH; auto; try congruence; by rewrite Hb2].
        rewrite Hb2. unfold s1. simpl. rewrite !length_app. lia.
Qed.

(** Scan with a configured boundary never panics; it keeps the scanner
    steady and consumes input with every non-empty token. *)
Lemma Scan_steady r s :
  configured r -> steady r s ->
  scanned r (length (pending s)) (Scan (createSplitFunc r) s).
Proof.
  intros Hc Hs. pose proof Hs as (Hd & He & Hinv).
  unfold Scan. rewrite Hd.
  pose proof (try_split_steady r s Hc Hs) as H.
  pose proof (try_split_More (createSplitFunc r) s) as HM.
  destruct (try_split (createSplitFunc r) s) as [res|s1]; [done|].
  destruct H as (Hb1 & Hf1 & Hd1 & He1 & Hm1).
  destruct (HM s1 eq_refl) as [Hr1 Herr1].
  destruct (err s1) as [e|] eqn:Herr.
  - eexists _, _. split; [reflexivity | done].
  - eapply scanned_le; [|apply read_more_steady; auto; by rewrite Hb1].
    unfold pending. rewrite Hb1, Hr1, length_app. lia.
Qed.

(** Along a run of non-empty tokens the scanner stays steady and the
    tokens are no more than the bytes consumed. *)
Lemma Scans_steady r s0 toks s1 :
  configured r -> steady r s0 ->
  Scans (createSplitFunc r) s0 toks s1 ->
  Forall (fun t => t <> []) toks ->
  steady r s1 /\ (length toks + length (pending s1) <= length (pending s0))%nat.
Proof.
  intros Hc Hs HS. induction HS as [s|s s1 s2 toks Hscan _ IH]; intros Hne.
  - split; [done | simpl; lia].
  - apply Forall_cons in Hne as [Ht Hne].
    destruct (Scan_steady r s Hc Hs) as (b & s' & Heq & H).
    rewrite Hscan in Heq. injection Heq as <- <-.
    destruct (H eq_refl) as (Hs1 & _ & _ & Hlt).
    destruct (IH Hs1 Hne) as [Hs2 Hlen]. split; [done|].
    specialize (Hlt Ht). simpl. lia.
Qed.

(** *** Scan against the reference split

    The scanner is reading a source that ends cleanly, with a literal
    boundary, or with everything already read, or with one read to come
    into an empty buffer. *)

Definition ready (r : Reader) (s : Scanner) : Prop :=
  done s = false /\ empties s = 0%nat /\ r_final s = EOF /\
  Forall (fun c => c <> []) (bufio.r s) /\
  ((err s = None /\
    (delimiter r = None \/ bufio.r s = [] \/
     (buf s = [] /\ (length (bufio.r s) <= 1)%nat))) \/
   (err s = Some EOF /\ bufio.r s = [] /\ buf s = [])).

(** What a call of Scan yields, against the reference split [raw] of the
    bytes that were pending. *)
Definition yields (r : Reader) (bound : nat) (raw : list bytes)
    (res : result (bool * Scanner)) : Prop :=
  match raw with
  | [] => exists s', res = Ret (false, s') /\ Err s' = None
  | t :: raw' =>
      exists s', res = Ret (true, s') /\ Text s' = t /\ Err s' = None /\
        (t <> [] -> ready r s' /\ (length (pending s') < bound)%nat /\
                    reference_split (boundary r) (pending s') = raw')
  end.

Lemma upto_app {A} (l rest : list A) (i : Z) :
  0 <= i <= len l -> upto (l ++ rest) i = upto l i.
Proof. unfold upto, len. intros H. apply take_app_le. lia. Qed.

Lemma from_app {A} (l rest : list A) (i : Z) :
  0 <= i <= len l -> from (l ++ rest) i = from l i ++ rest.
Proof. unfold from, len. intros H. apply drop_app_le. lia. Qed.

(** A boundary found in the buffer, with [rest] still to be read. *)
Lemma try_split_yields r s rest lo hi :
  configured r -> done s = false -> err s = None -> r_final s = EOF ->
  buf s <> [] -> concat (bufio.r s) = rest ->
  Forall (fun c => c <> []) (bufio.r s) ->
  delimiter r = None \/ rest = [] ->
  boundary r (buf s) = Some (lo, hi) ->
  exists res, try_split (createSplitFunc r) s = Done_ res /\
    yields r (length (buf s ++ rest)) (reference_split (boundary r) (buf s ++ rest)) res.
Proof.
  intros Hc Hd He Hf Hb Hrest Hne Hlit Hm.
  pose proof (boundary_bounds _ _ _ _ Hm) as [Hlo Hhi].
  rewrite (try_split_match r s lo hi) by done.
  eexists. split; [reflexivity|].
  assert (Hne' : buf s ++ rest <> []) by (destruct (buf s); done).
  rewrite (reference_split_match _ _ lo hi Hne' (boundary_app _ _ _ _ _ Hlit Hm)).
  unfold yields. eexists. split; [reflexivity|]. simpl.
  rewrite upto_app by lia. split; [done|]. split; [done|].
  intros Ht.
  assert (Hpos : 0 < hi).
  { destruct (decide (lo = 0)) as [->|]; [|lia]. by rewrite upto_0 in Ht. }
  unfold pending. simpl. rewrite Hrest.
  rewrite Z.max_r by lia. rewrite from_app by lia.
  split; [|split; [|done]].
  - repeat split; auto. left. split; [done|].
    destruct Hlit as [Hl | ->]; [by left|]. right. left.
    destruct (bufio.r s) as [|c cs]; [done|].
    apply Forall_cons in Hne as [Hc0 _]. simpl in Hrest.
    destruct c; [done | discriminate].
  - rewrite !length_app, length_from.
    assert (0 < length (buf s))%nat by (destruct (buf s); simpl; [done | lia]).
    unfold len in Hhi. lia.
Qed.

(** The source is exhausted: the pass with the error set to io.EOF. *)
Lemma pass_at_err_yields r s :
  configured r -> done s = false -> empties s = 0%nat -> err s = Some EOF ->
  r_final s = EOF -> bufio.r s = [] ->
  (buf s = [] \/ boundary r (buf s) = None) ->
  yields r (length (buf s)) (reference_split (boundary r) (buf s))
         (pass_at_err (createSplitFunc r) s).
Proof.
  intros Hc Hd He Herr Hf Hr Hb. unfold pass_at_err.
  destruct (decide (buf s = [])) as [Hb0|Hb0].
  - rewrite (try_split_end r s EOF) by done. rewrite Hb0.
    unfold yields, shutdown. simpl. eexists. split; [reflexivity | done].
  - destruct Hb as [?|Hm]; [done|].
    rewrite (try_split_rest r s EOF) by done.
    rewrite (reference_split_nomatch _ _ Hb0 Hm).
    unfold yields. eexists. split; [reflexivity|]. simpl.
    split; [done|]. split; [done|]. intros _.
    unfold pending. simpl. rewrite Hr. simpl.
    split; [|split; [|done]].
    + repeat split; auto.
    + destruct (buf s); simpl; [done | lia].
Qed.

Lemma read_more_yields r :
  configured r ->
  forall src loop s,
    done s = false -> empties s = 0%nat -> err s = None -> r_final s = EOF ->
    Forall (fun c => c <> []) src ->
    (delimiter r = None \/ (length src <= 1)%nat) ->
    (buf s = [] \/ boundary r (buf s) = None) ->
    len (buf s ++ concat src) < MaxScanTokenSize ->
    yields r (length (buf s ++ concat src))
           (reference_split (boundary r) (buf s ++ concat src))
           (read_more (createSplitFunc r) src loop s).
Proof.
  intros Hc. induction src as [|c src IH];
    intros loop s Hd He Herr Hf Hne Hlit Hb Hfit;
    cbn [read_more];
    (replace (MaxScanTokenSize <=? len (buf s)) with false
       by (symmetry; apply Z.leb_gt; revert Hfit; unfold len;
           rewrite length_app; lia)).
  - unfold setErr. simpl. rewrite Herr, Hf, app_nil_r.
    by apply (pass_at_err_yields r
      {| r := []; r_final := EOF; buf := buf s; tok := tok s; err := Some EOF;
         empties := empties s; done := done s |}).
  - apply Forall_cons in Hne as [Hc0 Hne].
    apply is_empty_false in Hc0. rewrite Hc0.
    apply is_empty_false in Hc0.
    set (s1 := {| r := src; r_final := r_final s; buf := buf s ++ c; tok := tok s;
                  err := err s; empties := 0; done := done s |}).
    assert (Hb1 : buf s1 <> []) by (unfold s1; simpl; destruct (buf s); [done | done]).
    assert (Hlit' : delimiter r = None \/ concat src = []).
    { destruct Hlit as [?|Hlen]; [by left|]. right.
      destruct src; [done | simpl in Hlen; lia]. }
    simpl concat. rewrite app_assoc.
    destruct (boundary r (buf s1)) as [[lo hi]|] eqn:Hm.
    + destruct (try_split_yields r s1 (concat src) lo hi) as (res & -> & Hy); auto.
    + pose proof (try_split_nomatch r s1 Hc Herr Hb1 Hm) as Hs.
      fold s1. rewrite Hs. simpl.
      apply (IH 0%nat {| r := src; r_final := r_final s; buf := buf s ++ c; tok := None;
                         err := None; empties := 0; done := done s |}); auto.
      * destruct Hlit as [?|Hlen]; [by left|]. right. simpl in Hlen. lia.
      * simpl. simpl in Hfit. by rewrite <- app_assoc.
Qed.

(** One call of Scan against the reference split of what is pending. *)
Lemma Scan_ready r s :
  configured r -> ready r s -> len (pending s) < MaxScanTokenSize ->
  yields r (length (pending s)) (reference_split (boundary r) (pending s))
         (Scan (createSplitFunc r) s).
Proof.
  intros Hc (Hd & He & Hf & Hne & Hstate) Hfit. unfold Scan. rewrite Hd.
  destruct Hstate as [[Herr Hkind] | (Herr & Hr & Hb)].
  - unfold pending. destruct (decide (buf s = [])) as [Hb|Hb].
    + rewrite try_split_idle by done. rewrite Herr.
      apply read_more_yields; auto.
      destruct Hkind as [?|[Hr|[_ ?]]]; [by left | | by right].
      right. rewrite Hr. simpl. lia.
    + assert (Hlit : delimiter r = None \/ concat (bufio.r s) = []).
      { destruct Hkind as [?|[Hr|[? _]]]; [by left | | done]. right. by rewrite Hr. }
      destruct (boundary r (buf s)) as [[lo hi]|] eqn:Hm.
      * destruct (try_split_yields r s (concat (bufio.r s)) lo hi)
          as (res & -> & Hy); auto.
      * rewrite (try_split_nomatch r s) by done. simpl.
        apply (read_more_yields r Hc (bufio.r s) 0%nat
                 {| r := bufio.r s; r_final := r_final s; buf := buf s; tok := None;
                    err := None; empties := empties s; done := done s |}); auto.
        destruct Hkind as [?|[Hr|[? _]]]; [by left | | done].
        right. rewrite Hr. simpl. lia.
  - unfold pending. rewrite Hr, Hb. simpl.
    rewrite (try_split_end r s EOF) by done. simpl.
    unfold yields, shutdown. simpl. eexists. split; [reflexivity | done].
Qed.

Lemma ready_NewScanner r input : reads r input -> ready r (NewScanner (reader r)).
Proof.
  intros (Hf & Hne & Hcat & Hkind & _). repeat split; auto.
  left. split; [done|]. destruct Hkind as [?|?]; [by left|]. right. right. done.
Qed.


Lemma pending_NewScanner src : pending (NewScanner src) = concat (chunks src).
Proof. done. Qed.

(** The scanner yields the non-empty tokens of the reference split up to
    the first empty one; then it yields an empty token, or it ends; no
    error is pending. *)
Lemma Scans_reference r :
  configured r ->
  forall k s, ready r s -> (length (pending s) <= k)%nat ->
    len (pending s) < MaxScanTokenSize ->
    exists s1 b s2,
      Scans (createSplitFunc r) s
            (before_empty (reference_split (boundary r) (pending s))) s1 /\
      Scan (createSplitFunc r) s1 = Ret (b, s2) /\ Err s2 = None /\
      (b = true -> Text s2 = []).
Proof.
  intros Hc. induction k as [|k IH]; intros s Hs Hlen Hfit;
    pose proof (Scan_ready r s Hc Hs Hfit) as Hy;
    destruct (reference_split (boundary r) (pending s)) as [|t raw].
  - destruct Hy as (s' & HS & HE). exists s, false, s'. simpl.
    split; [constructor | done].
  - destruct Hy as (s' & HS & HT & HE & Hnext). simpl.
    destruct (is_empty t) eqn:Ht.
    + apply is_empty_true in Ht. exists s, true, s'.
      split; [constructor|]. split; [done|]. split; [done|]. intros _. congruence.
    + apply is_empty_false in Ht. destruct (Hnext Ht) as (_ & Hlt & _). lia.
  - destruct Hy as (s' & HS & HE). exists s, false, s'. simpl.
    split; [constructor | done].
  - destruct Hy as (s' & HS & HT & HE & Hnext). simpl.
    destruct (is_empty t) eqn:Ht.
    + apply is_empty_true in Ht. exists s, true, s'.
      split; [constructor|]. split; [done|]. split; [done|]. intros _. congruence.
    + apply is_empty_false in Ht. destruct (Hnext Ht) as (Hr' & Hlt & Hraw).
      destruct (IH s' Hr' ltac:(lia) ltac:(unfold len in *; lia))
        as (s1 & b & s2 & HSc & Hlast & HE2 & Hb).
      rewrite Hraw in HSc. exists s1, b, s2. split; [|done].
      rewrite <- HT. by econstructor.
Qed.

(** *** The calls, along a run of the scanner *)

Lemma kept_all r raw :
  Forall (fun t => refused r (normalized r t) = false) raw ->
  kept r raw = map (normalized r) raw /\ skipped r raw = [].
Proof.
  unfold kept, skipped. induction 1 as [|t raw Ht _ [IH1 IH2]]; [done|].
  simpl. rewrite Ht. simpl. by rewrite IH1, IH2.
Qed.

Lemma no_fatal_all r raw :
  Forall (fun t => refused r (normalized r t) = false) raw -> no_fatal r raw.
Proof.
  unfold no_fatal. induction 1 as [|t raw Ht _ IH]; constructor; [|done].
  by rewrite Ht.
Qed.

(** ReadTokens, once the scanner has yielded the non-empty tokens [pre],
    none of them fatal: the loop is at the state [s1] with the counter and
    the tokens [pre] brought, and at least one more pass to go. *)
Lemma ReadTokens_exit_Scans caller r pre s1 :
  configured r ->
  Scans (createSplitFunc r) (NewScanner (reader r)) pre s1 ->
  Forall (fun t => t <> []) pre -> no_fatal r pre ->
  exists fuel,
    ReadTokens_exit caller r =
    ReadTokens_loop (S fuel) caller r s1 (sum_len (map (normalized r) pre)) (kept r pre).
Proof.
  intros Hc HS Hne Hnf.
  destruct (Scans_steady r _ _ _ Hc (steady_NewScanner r _) HS Hne) as [_ Hlen].
  rewrite pending_NewScanner in Hlen.
  exists (length (concat (chunks (reader r))) - length pre)%nat.
  unfold ReadTokens_exit, passes.
  replace (S (length (concat (chunks (reader r)))))
    with (length pre + S (length (concat (chunks (reader r))) - length pre))%nat by lia.
  by rewrite (ReadTokens_loop_Scans caller r _ _ _ HS Hne Hnf).
Qed.



(** Two exits of a loop that agree except for the offset in the error. *)
Definition same_but_offset (a b : result Exit) : Prop :=
  match a, b with
  | Ret x, Ret y =>
      x_tokens x = x_tokens y /\
      set_Index 0 <$> x_err x = set_Index 0 <$> x_err y /\
      x_scanner x = x_scanner y
  | Panic m, Panic m' => m = m'
  | Blocked, Blocked => True
  | OutOfFuel, OutOfFuel => True
  | _, _ => False
  end.

Lemma ReadTokens_loop_offset caller r fuel sc n0 n1 acc :
  same_but_offset (ReadTokens_loop fuel caller r sc n0 acc)
                  (ReadTokens_loop fuel caller r sc n1 acc).
Proof.
  revert sc n0 n1 acc. induction fuel as [|fuel IH]; intros sc n0 n1 acc; [done|].
  cbn [ReadTokens_loop].
  destruct (Scan (createSplitFunc r) sc) as [[[|] sc']| | |]; try done.
  - destruct (is_empty (Text sc')).
    + unfold after_loop. destruct (Err sc'); [destruct (FailOnError r)|]; done.
    + destruct (refused r (normalized r (Text sc'))); [|apply IH].
      destruct (FailOnInvalid r); [done | apply IH].
  - unfold after_loop. destruct (Err sc'); [destruct (FailOnError r)|]; done.
Qed.

Lemma select_Cancelled e :
  select e = Cancelled <->
  ctx_done e = true /\ (recv_ready e = false \/ pick_send e = false).
Proof.
  unfold select. destruct (recv_ready e), (ctx_done e), (pick_send e); simpl;
    split; try done; try (intros [? [?|?]]; done); auto.
Qed.

(** *** The claims about ReadTokens and StreamTokens *)



(** C5: when the filter refuses the normalized token of a Scan and
    FailOnInvalid is set, ReadTokens returns at once: the tokens accepted
    before, and an Invalid error that carries the refused token and the
    running offset; the scanner is left as that Scan left it, so nothing
    further is scanned. *)
Theorem ReadTokens_fails_fast caller r pre s1 s2 :
  configured r ->
  Scans (createSplitFunc r) (NewScanner (reader r)) pre s1 ->
  Scan (createSplitFunc r) s1 = Ret (true, s2) -> Text s2 <> [] ->
  Forall (fun t => t <> []) pre ->
  FailOnInvalid r = true ->
  Forall (fun t => refused r (normalized r t) = false) pre ->
  refused r (normalized r (Text s2)) = true ->
  exists e,
    ReadTokens_exit caller r =
      Ret (mkExit (map (normalized r) pre) (Some e)
                  (sum_len (map (normalized r) pre)) s2) /\
    ReadTokens caller r = Ret (map (normalized r) pre, Some e) /\
    Is e ErrInvalid = true /\ Token e = normalized r (Text s2) /\
    ErrIndex e = sum_len (map (normalized r) pre).
Proof.
  intros Hc HS Hscan Ht Hne Hfail Hok Href.
  destruct (ReadTokens_exit_Scans caller r _ _ Hc HS Hne (no_fatal_all r _ Hok))
    as (fuel & Hexit).
  destruct (kept_all r pre Hok) as [Hkept _]. rewrite Hkept in Hexit.
  exists (newErrInvalid caller (normalized r (Text s2))
                        (sum_len (map (normalized r) pre))).
  assert (H1 : ReadTokens_exit caller r =
               Ret (mkExit (map (normalized r) pre)
                      (Some (newErrInvalid caller (normalized r (Text s2))
                               (sum_len (map (normalized r) pre))))
                      (sum_len (map (normalized r) pre)) s2)).
  { rewrite Hexit. cbn [ReadTokens_loop]. rewrite Hscan.
    apply is_empty_false in Ht. by rewrite Ht, Href, Hfail. }
  split; [done|]. unfold ReadTokens. rewrite H1. done.
Qed.


(** C7: when ReadTokens ends after the non-empty tokens [pre] (with the
    end of the input, an empty token, or a token refused under
    FailOnInvalid), its counter n, which an Invalid error carries as its
    offset, is the total length of the tokens accepted and of the tokens
    skipped, delimiters not included; and the tokens returned, the error
    but for its offset, and the scanner do not depend on the counter. *)
Theorem offset_counts_token_bytes caller r pre s1 b s2 :
  configured r ->
  Scans (createSplitFunc r) (NewScanner (reader r)) pre s1 ->
  Forall (fun t => t <> []) pre -> no_fatal r pre ->
  Scan (createSplitFunc r) s1 = Ret (b, s2) ->
  b = false \/ Text s2 = [] \/
    (refused r (normalized r (Text s2)) = true /\ FailOnInvalid r = true) ->
  (exists x, ReadTokens_exit caller r = Ret x /\
     x_tokens x = kept r pre /\
     x_n x = sum_len (kept r pre) + sum_len (skipped r pre) /\
     (forall e, x_err x = Some e -> Is e ErrInvalid = true -> ErrIndex e = x_n x)) /\
  (forall fuel sc n0 n1 acc,
     same_but_offset (ReadTokens_loop fuel caller r sc n0 acc)
                     (ReadTokens_loop fuel caller r sc n1 acc)).
Proof.
  intros Hc HS Hne Hnf Hscan Hend. split; [|intros; apply ReadTokens_loop_offset].
  destruct (ReadTokens_exit_Scans caller r _ _ Hc HS Hne Hnf) as (fuel & Hexit).
  rewrite Hexit. cbn [ReadTokens_loop]. rewrite Hscan.
  rewrite <- sum_len_kept_skipped.
  assert (Hleave : forall sc, exists x,
            Ret (after_loop caller r sc (sum_len (map (normalized r) pre)) (kept r pre)) = Ret x /\
            x_tokens x = kept r pre /\ x_n x = sum_len (map (normalized r) pre) /\
            (forall e, x_err x = Some e -> Is e ErrInvalid = true -> ErrIndex e = x_n x)).
  { intros sc. eexists. split; [reflexivity|]. unfold after_loop.
    destruct (Err sc); [destruct (FailOnError r)|]; simpl; repeat split; try done.
    intros e0 [= <-]. done. }
  destruct b; [|apply Hleave].
  destruct Hend as [?|[Ht|[Href Hfail]]]; [done | |].
  - rewrite Ht. simpl. apply Hleave.
  - destruct (is_empty (Text s2)); [apply Hleave|].
    rewrite Href, Hfail. eexists. split; [reflexivity|]. simpl.
    repeat split; try done. by intros e [= <-].
Qed.

End Scan.
End reader_scan.

(** ** reader.go: the claims on concrete inputs *)

Module reader_examples.
Import bufio reader reader_scan.

Definition site : CallSite := mkCallSite "/home/user/app/main.go" (Some "main.run"%string) 42.

(** Lines of text joined by newlines. *)
Fixpoint lines (l : list string) : bytes :=
  match l with
  | [] => []
  | [s] => B s
  | s :: l' => B s ++ newline :: lines l'
  end.

Local Open Scope string_scope.

(** A source that hands its bytes over in the reads [cs]. *)
Definition in_reads (cs : list bytes) : Source := {| chunks := cs; final := EOF |}.

(** A Reader over [src] with the literal delimiter [sep], no normalizer and
    no filter. *)
Definition literal_reader (sep : bytes) (src : Source) : Reader (engine := toyregexp.engine) :=
  {| reader := src; delimiter := None; delimiterStr := sep;
     normalize := None; filter := None; FailOnError := true; FailOnInvalid := false |}.

(** The same with the compiled delimiter \s+. *)
Definition spaces_reader (src : Source) : Reader (engine := toyregexp.engine) :=
  SetDelimiter (engine := toyregexp.engine) (Some (toyregexp.Run isSpace))
               (literal_reader [] src).

(** NewReader().FromString(input) with the filter FilterMinLength(3). *)
Definition lenient_reader (input : bytes) : Reader (engine := toyregexp.engine) :=
  SetFilter (Some (FilterMinLength 3))
    (SetReaders [bufio.NewReader input] (NewReader (bufio.NewReader []))).

(** The same with FailOnInvalid set. *)
Definition strict_reader (input : bytes) : Reader (engine := toyregexp.engine) :=
  SetFailOnInvalid true (lenient_reader input).

(** A consumer that is always ready and a context that is never done. *)
Definition background : Context :=
  {| ctx_Err := Canceled; handoffs := fun _ => mkHandoff true false false |}.


(** A context cancelled after [k] handoffs, with a consumer that stops
    taking tokens then. *)
Definition cancelled_after (k : nat) : Context :=
  {| ctx_Err := Canceled;
     handoffs := fun i => if (i <? k)%nat then mkHandoff true false false
                          else mkHandoff false true false |}.

(** The scanner of [r] after [n] calls of Scan. *)
Definition after_scans (n : nat) (r : Reader (engine := toyregexp.engine)) : Scanner :=
  Nat.iter n (fun s => match Scan (createSplitFunc r) s with
                       | Ret (_, s') => s'
                       | _ => s
                       end)
           (NewScanner (reader r)).

(** A line of MaxScanTokenSize bytes, with no newline. *)
Definition long_line : bytes := repeat "a"%char (Z.to_nat MaxScanTokenSize).

Definition triple := literal_reader (B ",") (bufio.NewReader (B "a,b,c")).
Definition strict := strict_reader (lines ["hello"; "hi"; "world"]).
Definition lenient := lenient_reader (lines ["hello"; "hi"; "world"]).


(** A literal boundary does not depend on how the source cuts the input:
    "hello,world" read as "he", "llo,wor", "ld" is a source that [reads]
    describes, and ReadTokens returns [hello; world]. *)
Lemma ReadTokens_literal_in_reads :
  reads (literal_reader (B ",") (in_reads [B "he"; B "llo,wor"; B "ld"]))
        (B "hello,world") /\
  ReadTokens site (literal_reader (B ",") (in_reads [B "he"; B "llo,wor"; B "ld"])) =
    Ret ([B "hello"; B "world"], None).
Proof.
  split; [|vm_compute; reflexivity].
  split; [reflexivity|]. split; [repeat constructor; discriminate|].
  split; [reflexivity|]. split; [by left | vm_compute; reflexivity].
Qed.

(** With a compiled pattern it does: the split function matches the pattern
    against what is buffered, so a delimiter cut by a read ("a " then " b")
    is matched in two parts and the second part yields an empty token. *)
Lemma ReadTokens_compiled_across_reads :
  ReadTokens site (spaces_reader (in_reads [B "a "; B " b"])) = Ret ([B "a"], None) /\
  reference_split (boundary (spaces_reader (in_reads [B "a "; B " b"]))) (B "a  b") =
    [B "a"; B "b"].
Proof. split; vm_compute; reflexivity. Qed.

(** A token that fills the scanner's buffer is not returned: on a line of
    64 KiB the scan fails with bufio.ErrTooLong, which ReadTokens reports
    as a Read error; one byte less and the line is returned. *)
Lemma ReadTokens_token_too_long :
  ReadTokens site (literal_reader [newline] (bufio.NewReader long_line)) =
    Ret ([], Some (ReaderErr (Some ErrRead) (Some ErrTooLong) [] (-1) "main.go" "run" 42)) /\
  reference_split (boundary (literal_reader [newline] (bufio.NewReader long_line)))
                  long_line = [long_line] /\
  ReadTokens site (literal_reader [newline] (bufio.NewReader (removelast long_line))) =
    Ret ([removelast long_line], None).
Proof. repeat split; vm_compute; reflexivity. Qed.



(** C5, witness: "hello\nhi\nworld" with FilterMinLength(3) and
    FailOnInvalid returns [hello] and an Invalid error for "hi" at offset 5. *)
Lemma ReadTokens_fails_fast_witness :
  exists e,
    ReadTokens_exit site strict =
      Ret (mkExit [B "hello"] (Some e) 5
             (after_scans 2 strict)) /\
    ReadTokens site strict =
      Ret ([B "hello"], Some e) /\
    Is e ErrInvalid = true /\ Token e = B "hi" /\ ErrIndex e = 5.
Proof.
  apply (ReadTokens_fails_fast site strict
           [B "hello"]
           (after_scans 1 strict)
           (after_scans 2 strict)).
  - right. discriminate.
  - apply (Scans_cons_eq _ _ (after_scans 1 strict)); [vm_compute; reflexivity | vm_compute; reflexivity |].
    apply Scans_nil.
  - vm_compute; reflexivity.
  - discriminate.
  - repeat constructor; discriminate.
  - vm_compute; reflexivity.
  - repeat constructor.
  - vm_compute; reflexivity.
Defined.



(** C7, witness: on "hello\nhi\nworld" with FilterMinLength(3), "hi" is
    skipped and the counter ends at 12 = 10 + 2, the lengths of the tokens
    accepted and skipped, without the two newlines. *)
Lemma offset_counts_token_bytes_witness :
  (exists x,
     ReadTokens_exit site lenient = Ret x /\
     x_tokens x = [B "hello"; B "world"] /\
     x_n x = 10 + 2 /\
     (forall e, x_err x = Some e -> Is e ErrInvalid = true -> ErrIndex e = x_n x)) /\
  (forall fuel sc n0 n1 acc,
     same_but_offset
       (ReadTokens_loop fuel site lenient sc n0 acc)
       (ReadTokens_loop fuel site lenient sc n1 acc)).
Proof.
  apply (offset_counts_token_bytes site lenient
           [B "hello"; B "hi"; B "world"]
           (after_scans 3 lenient)
           false
           (after_scans 4 lenient)).
  - right. discriminate.
  - apply (Scans_cons_eq _ _ (after_scans 1 lenient)); [vm_compute; reflexivity | vm_compute; reflexivity |].
    apply (Scans_cons_eq _ _ (after_scans 2 lenient)); [vm_compute; reflexivity | vm_compute; reflexivity |].
    apply (Scans_cons_eq _ _ (after_scans 3 lenient)); [vm_compute; reflexivity | vm_compute; reflexivity |].
    apply Scans_nil.
  - repeat constructor; discriminate.
  - repeat constructor; discriminate.
  - vm_compute; reflexivity.
  - by left.
Defined.

End reader_examples.

(** ** The Delimiters: invariants, defaults and the stop precedence *)

Module delimiter_facts.
Import bufio.

(** An occurrence at position [i] bounds the leftmost one. *)
Lemma index_of_le (data sep : bytes) (i : nat) :
  has_prefix (drop i data) sep = true ->
  exists j, index_of data sep = Some j /\ (j <= i)%nat.
Proof.
  revert i. induction data as [|c data IH]; intros i Hp; simpl.
  - rewrite drop_nil in Hp. rewrite Hp. exists 0%nat. split; [done | lia].
  - destruct (has_prefix (c :: data) sep) eqn:H0.
    + exists 0%nat. split; [done | lia].
    + destruct i as [|i]; [simpl in Hp; congruence|]. simpl in Hp.
      destruct (IH i Hp) as (j & -> & Hj). exists (S j). split; [done | lia].
Qed.

(** A text occurs no later than any text it is a prefix of. *)
Lemma Index_prefix_le (data sep ext : bytes) :
  0 <= Index data (sep ++ ext) -> 0 <= Index data sep <= Index data (sep ++ ext).
Proof.
  unfold Index. destruct (index_of data (sep ++ ext)) as [i|] eqn:Hi; [|lia].
  intros _. apply index_of_Some in Hi as [Hp _].
  assert (Hp' : has_prefix (drop i data) sep = true).
  { apply has_prefix_app in Hp. rewrite Hp, <- app_assoc. apply has_prefix_refl. }
  destruct (index_of_le data sep i Hp') as (j & -> & Hj). lia.
Qed.

Section Facts.
Context {engine : RegexpEngine}.

(** *** The Delimiter with one pattern *)

(** Exactly one of the two forms is set. *)
Definition one_form (d : delimiter.Delimiter) : Prop :=
  (delimiter.regexpr d <> None /\ delimiter.str d = []) \/
  (delimiter.regexpr d = None /\ delimiter.str d <> []).

Lemma reachable_one_form d : delimiter.reachable d -> one_form d.
Proof.
  induction 1 as [|re d d' _ _ Hset|s d _ _|expr d d' _ _ Hset].
  - right. by split.
  - left. unfold delimiter.SetRegexp in Hset.
    destruct re as [re|]; [by injection Hset as <-|].
    destruct (MustCompile [newline]); [by injection Hset as <-|done].
  - right. unfold delimiter.SetStr. simpl. split; [done|]. by destruct s.
  - left. unfold delimiter.SetRegexpFromString in Hset.
    destruct (MustCompile expr); [by injection Hset as <-|done].
Qed.

(** *** The Delimiter with a token and a stop pattern *)

Import stopdelim.

(** A pattern is never both literal and compiled. *)
Definition exclusive (p : pattern) : Prop := re p = None \/ str p = [].

(** The Delimiters the constructors, setters and builders can produce. *)
Inductive reachable : Delimiter -> Prop :=
| reach_Default : reachable DefaultDelimiter
| reach_SetTokenRegexp x d : reachable d -> reachable (SetTokenRegexp x d)
| reach_SetTokenStr s d : reachable d -> reachable (SetTokenStr s d)
| reach_SetTokenRegexpFromString s d d' :
    reachable d -> SetTokenRegexpFromString s d = Ret d' -> reachable d'
| reach_SetStopRegexp x d : reachable d -> reachable (SetStopRegexp x d)
| reach_SetStopStr s d : reachable d -> reachable (SetStopStr s d)
| reach_SetStopRegexpFromString s d d' :
    reachable d -> SetStopRegexpFromString s d = Ret d' -> reachable d'
| reach_WithTokenRegexp x d : reachable d -> reachable (WithTokenRegexp x d)
| reach_WithTokenStr s d : reachable d -> reachable (WithTokenStr s d)
| reach_WithTokenRegexpFromString s d d' :
    reachable d -> WithTokenRegexpFromString s d = Ret d' -> reachable d'
| reach_WithStopRegexp x d : reachable d -> reachable (WithStopRegexp x d)
| reach_WithStopStr s d : reachable d -> reachable (WithStopStr s d)
| reach_WithStopRegexpFromString s d d' :
    reachable d -> WithStopRegexpFromString s d = Ret d' -> reachable d'.

(** X17: in every Delimiter that DefaultDelimiter, the setters and the
    builders produce, neither the token pattern nor the stop pattern is
    both literal and compiled. *)
Lemma reachable_exclusive d :
  reachable d -> exclusive (token d) /\ exclusive (stop d).
Proof.
  unfold exclusive.
  induction 1 as [|x d _ IH|s d _ IH|s d d' _ IH Hset|x d _ IH|s d _ IH|s d d' _ IH Hset
                  |x d _ IH|s d _ IH|s d d' _ IH Hset|x d _ IH|s d _ IH|s d d' _ IH Hset];
    simpl; try tauto; try (split; [tauto | by left]); try (split; [by left | tauto]);
    revert Hset;
    unfold SetTokenRegexpFromString, SetStopRegexpFromString,
           WithTokenRegexpFromString, WithStopRegexpFromString;
    destruct (is_empty s); try done;
    destruct (MustCompile s); try done; intros [= <-]; simpl; tauto.
Qed.

(** Where both patterns match at the same index the token branch is the
    one taken. *)
Lemma SplitFunc_tie d data atEOF i tw sw :
  atEOF && is_empty data = false ->
  enabled (stop d) = true ->
  find (Some (token d)) data = (i, tw) -> find (Some (stop d)) data = (i, sw) ->
  0 <= i ->
  SplitFunc d data atEOF = Split (i + tw) (Some (upto data i)) None.
Proof.
  intros Hne Hen Ht Hs Hi. unfold SplitFunc. rewrite Hne, Ht, Hen, Hs.
  assert (H1 : (0 <=? i) = true) by lia.
  assert (H2 : (i <? 0) = false) by lia.
  assert (H3 : (i <? i) = false) by lia.
  by rewrite H1, H2, H3.
Qed.

(** X19: with the default patterns the stop branch is never taken ("\n"
    matches wherever "\n\n" does, and no later): the split function of
    DefaultDelimiter is the one of the same Delimiter with its stop pattern
    disabled. *)
Lemma DefaultDelimiter_stop_never_wins data atEOF :
  SplitFunc DefaultDelimiter data atEOF =
  SplitFunc (SetStopStr [] DefaultDelimiter) data atEOF.
Proof.
  unfold SplitFunc. destruct (atEOF && is_empty data); [done|].
  cbn [find token stop DefaultDelimiter SetStopStr re str enabled is_empty negb
       notnil orb].
  pose proof (Index_prefix_le data [newline] [newline]) as Hle.
  change ([newline] ++ [newline]) with [newline; newline] in Hle.
  destruct (Index data [newline; newline] <? 0) eqn:Hs; rewrite ?Hs; simpl; [done|].
  assert (H1 : (Index data [newline] <? 0) = false) by lia.
  assert (H2 : (Index data [newline; newline] <? Index data [newline]) = false) by lia.
  rewrite H1. simpl. rewrite H1, H2. simpl. by rewrite andb_false_r.
Qed.

(** C4 (as amended): the default token boundary is the single newline, in
    the Delimiter and in the Reader of reader.go alike; that Reader has no
    stop boundary (its split function never ends a scan by itself), while
    the default Delimiter has its stop pattern enabled, set to the literal
    of two newlines. *)
Theorem default_configuration stdin :
  token DefaultDelimiter = {| re := None; str := [newline] |} /\
  enabled (token DefaultDelimiter) = true /\
  stop DefaultDelimiter = {| re := None; str := [newline; newline] |} /\
  enabled (stop DefaultDelimiter) = true /\
  reader.delimiter (reader.NewReader stdin) = None /\
  reader.delimiterStr (reader.NewReader stdin) = [newline] /\
  (forall data atEOF, exists advance tok,
     reader.createSplitFunc (reader.NewReader stdin) data atEOF = Split advance tok None).
Proof.
  repeat (split; [reflexivity|]).
  intros data atEOF.
  rewrite reader_scan.createSplitFunc_configured by (right; discriminate).
  destruct (atEOF && is_empty data); [eauto|].
  destruct (reader_scan.boundary _ data) as [[lo hi]|]; [eauto|].
  destruct atEOF; eauto.
Qed.

End Facts.

(** *** On concrete inputs *)

Definition D0 : stopdelim.Delimiter (engine := toyregexp.engine) :=
  stopdelim.DefaultDelimiter.

(** C4, counterexample: the stop pattern of the default Delimiter is
    enabled. *)
Lemma DefaultDelimiter_stop_enabled :
  stopdelim.enabled (stopdelim.stop D0) = true /\
  stopdelim.str (stopdelim.stop D0) = [newline; newline].
Proof. split; reflexivity. Qed.

(** C2, at the failing input "a\n\nb" with the default Delimiter: the
    stop pattern "\n\n" and the token pattern "\n" both match at index 1;
    the split function takes the token branch (it emits "a", advances past
    one newline and reports no end), and the scan goes on to yield the
    empty token and "b". *)
Lemma SplitFunc_tie_continues :
  stopdelim.find (Some (stopdelim.stop D0)) (B "a" ++ [newline; newline] ++ B "b") = (1, 2) /\
  stopdelim.find (Some (stopdelim.token D0)) (B "a" ++ [newline; newline] ++ B "b") = (1, 1) /\
  stopdelim.SplitFunc D0 (B "a" ++ [newline; newline] ++ B "b") false =
    Split 2 (Some (B "a")) None /\
  stopdelim.scan_all 8 (stopdelim.SplitFunc D0)
    (NewScanner (bufio.NewReader (B "a" ++ [newline; newline] ++ B "b"))) =
    Ret [B "a"; []; B "b"].
Proof. repeat split; reflexivity. Qed.

(** C8, at the failing input SetTokenStr(""): the token pattern is left
    with neither form, so it is not enabled (and likewise with
    WithTokenStr("") and SetTokenRegexp(nil)); SetStr("") of the
    one-pattern Delimiter falls back to the newline. *)
Lemma SetTokenStr_empty_disables :
  stopdelim.enabled (stopdelim.token (stopdelim.SetTokenStr [] D0)) = false /\
  stopdelim.enabled (stopdelim.token (stopdelim.WithTokenStr [] D0)) = false /\
  stopdelim.enabled (stopdelim.token (stopdelim.SetTokenRegexp None D0)) = false /\
  stopdelim.SplitFunc (stopdelim.SetTokenStr [] D0) (B "a,b") false = Split 0 None None /\
  delimiter.str (delimiter.SetStr (engine := toyregexp.engine) []
                   delimiter.DefaultDelimiter) = [newline].
Proof. repeat split; reflexivity. Qed.

End delimiter_facts.

(** ** Builders and Close *)

Module builder_facts.
Import bufio.

Section ReaderBuilders.
Context {engine : RegexpEngine}.

(** X14: reader.go: a With or From builder leaves the Reader it is called
    on as it was and returns a pointer to a new Reader, the copy with the
    setter applied; no other Reader changes. *)
Lemma build_keeps_original (f : reader.Reader -> reader.Reader) p
    (h : gmap nat reader.Reader) v :
  h !! p = Some v ->
  exists q h', reader.build f p h = Ret (q, h') /\
               q <> p /\ h' !! p = Some v /\ h' !! q = Some (f v) /\
               (forall p', p' <> q -> h' !! p' = h !! p').
Proof.
  intros Hp. unfold reader.build, reader.call. rewrite Hp.
  set (q := fresh (dom h)).
  assert (Hq : h !! q = None).
  { apply (not_elem_of_dom (D := gset nat)). apply is_fresh. }
  assert (Hne : q <> p) by congruence.
  exists q, (alter f q (<[q := v]> h)). split; [done|]. split; [done|].
  split; [|split].
  - rewrite lookup_alter_ne by done. by rewrite lookup_insert_ne.
  - rewrite lookup_alter_eq, lookup_insert_eq. done.
  - intros p' Hp'. rewrite lookup_alter_ne by done. by rewrite lookup_insert_ne.
Qed.

End ReaderBuilders.

Section ReaderCloser.
Context {engine : RegexpEngine} {resources : readercloser.Resources}.
Import readercloser.

Lemma Close_loop_spec caller cs w firstErr :
  Close_loop caller cs w firstErr =
    let '(w', es) := close_each cs w in
    (w', match firstErr with
         | Some e => Some e
         | None => newErrClose caller <$> first_failure es
         end).
Proof.
  revert w firstErr. induction cs as [|c cs IH]; intros w firstErr; simpl.
  - by destruct firstErr.
  - destruct (close c w) as [w1 e]. 
    destruct e as [e|], firstErr as [fe|]; rewrite IH;
      destruct (close_each cs w1) as [w2 es]; done.
Qed.

Lemma close_each_length cs w : length (close_each cs w).2 = length cs.
Proof.
  revert w. induction cs as [|c cs IH]; intros w; simpl; [done|].
  destruct (close c w) as [w1 e]. specialize (IH w1).
  destruct (close_each cs w1) as [w2 es]. simpl in *. by rewrite IH.
Qed.

(** C9: Close closes every tracked resource, in registration order, each in
    the state the earlier closes left, whatever they returned; it returns
    the first failure among the results wrapped as a Close error (nil when
    there is none) and leaves the ReaderCloser tracking nothing. *)
Theorem Close_attempts_every_closer caller rc st :
  Close caller rc st =
    match rcs st !! rc with
    | None => nil_deref
    | Some v =>
        let '(w', es) := close_each (closers v) (world st) in
        Ret (newErrClose caller <$> first_failure es,
             {| readers := readers st;
                rcs := <[rc := {| Reader_ptr := Reader_ptr v; closers := [] |}]> (rcs st);
                world := w' |})
    end /\
  (forall v, rcs st !! rc = Some v ->
     length (close_each (closers v) (world st)).2 = length (closers v)).
Proof.
  split; [|intros; apply close_each_length].
  unfold Close. destruct (rcs st !! rc) as [v|]; [|done].
  rewrite Close_loop_spec. by destruct (close_each (closers v) (world st)).
Qed.

End ReaderCloser.

(** *** On concrete resources *)

Import readercloser.

Definition site : CallSite := mkCallSite "/home/user/app/main.go" (Some "main.run"%string) 42.

(** Three files; file 1 fails to close. *)
Definition disk : Files :=
  {| fs := [(B "a.txt", B "a"); (B "b.txt", B "b"); (B "c.txt", B "c")];
     closed := []; failing := [1%nat]; attempts := [] |}.

Definition empty_state : State (engine := toyregexp.engine) (resources := files) :=
  mkState (engine := toyregexp.engine) (resources := files) ∅ ∅ disk.

(** A ReaderCloser tracking the files 0, 1, 2, 1 in this order. *)
Definition tracking : State (engine := toyregexp.engine) (resources := files) :=
  mkState (engine := toyregexp.engine) (resources := files)
    {[ 0%nat := NewReader (bufio.NewReader []) ]}
    {[ 0%nat := {| Reader_ptr := Some 0%nat; closers := [0; 1; 2; 1]%nat |} ]}
    disk.

(** What a call of Close shows: the error returned, the order in which
    the files were attempted, and what the ReaderCloser tracks afterwards. *)
Definition Close_observed (rc : nat)
    (st : State (engine := toyregexp.engine) (resources := files))
    : option (option error * list nat * option (list nat)) :=
  match Close site rc st with
  | Ret (e, st') => Some (e, attempts (world st'), closers <$> rcs st' !! rc)
  | _ => None
  end.

(** Close on four tracked files of which the second and the fourth fail:
    all four are attempted in order, the error is the second's. *)
Lemma Close_example :
  Close_observed 0%nat tracking =
    Some (Some (newErrClose site (Cause "input/output error")),
          [0; 1; 2; 1]%nat, Some []).
Proof. vm_compute. reflexivity. Qed.

(** The one-pattern Delimiter "--". *)
Definition dashes : delimiter.Delimiter (engine := toyregexp.engine) :=
  delimiter.WithStr (B "--") delimiter.DefaultDelimiter.

(** The state after rc := NewReaderCloser(). *)
Definition fresh_rc : nat * State (engine := toyregexp.engine) (resources := files) :=
  NewReaderCloser (bufio.NewReader (B "stdin")) empty_state.

(** The delimiter seen through the ReaderCloser pointer [rc]. *)
Definition delimiter_of (rc : nat)
    (st : State (engine := toyregexp.engine) (resources := files))
    : option (option delimiter.Delimiter) :=
  (delimiter ∘ fst) <$> config rc st.

(** What rc.WithDelimiter(d) shows: whether the pointer returned is rc
    itself, and the delimiters seen afterwards through rc and through the
    pointer returned. *)
Definition WithDelimiter_observed (d : delimiter.Delimiter) (rc : nat)
    (st : State (engine := toyregexp.engine) (resources := files)) :=
  match WithDelimiter (Some d) rc st with
  | Ret (q, st') => Some (bool_decide (q = rc), delimiter_of rc st', delimiter_of q st')
  | _ => None
  end.

(** A ReaderCloser reading the file 0 and tracking it. *)
Definition reading_file : State (engine := toyregexp.engine) (resources := files) :=
  mkState (engine := toyregexp.engine) (resources := files)
    {[ 0%nat := Reader_SetReaders [bufio.NewReader (B "a")]
                  (NewReader (bufio.NewReader [])) ]}
    {[ 0%nat := {| Reader_ptr := Some 0%nat; closers := [0%nat] |} ]}
    disk.

(** The input source seen through the ReaderCloser pointer [rc]. *)
Definition source_of (rc : nat)
    (st : State (engine := toyregexp.engine) (resources := files)) : option Source :=
  (reader ∘ fst) <$> config rc st.

(** What rc.FromString(s) shows: whether the pointer returned is rc itself,
    the input source seen afterwards through rc, the resources rc tracks,
    and the files closed. *)
Definition FromString_observed (s : bytes) (rc : nat)
    (st : State (engine := toyregexp.engine) (resources := files)) :=
  match FromString site s rc st with
  | Ret (q, st') =>
      Some (bool_decide (q = rc), source_of rc st', snd <$> config rc st',
            closed (world st'))
  | _ => None
  end.

(** C10, at the failing inputs rc.WithDelimiter(d) for rc :=
    NewReaderCloser(), and rc.FromString("x") for an rc that reads a file:
    the copy shares the embedded *Reader with rc, so afterwards rc itself
    scans with the delimiter d, respectively reads "x" while the file it
    still tracks has been closed. *)
Lemma builders_change_receiver :
  delimiter_of fresh_rc.1 fresh_rc.2 = Some (Some delimiter.DefaultDelimiter) /\
  WithDelimiter_observed dashes fresh_rc.1 fresh_rc.2 =
    Some (false, Some (Some dashes), Some (Some dashes)) /\
  source_of 0%nat reading_file = Some (MultiReader [bufio.NewReader (B "a")]) /\
  FromString_observed (B "x") 0%nat reading_file =
    Some (false, Some (MultiReader [bufio.NewReader (B "x")]), Some [0%nat], [0%nat]).
Proof. repeat split; vm_compute; reflexivity. Qed.

End builder_facts.

(** ** Split functions and the scanner's protocol *)

Module split_facts.
Import bufio reader reader_scan.

(** [t] is a prefix of [data]. *)
Definition prefix_of (t data : bytes) : Prop := exists rest, data = t ++ rest.

(** What bufio.Scanner asks of a split function, and a little more: no
    error and no panic, an advance inside the data, a token that is a prefix
    of the data and no longer than the advance, nothing consumed without a
    token, and a token for whatever is left at the end of the input. *)
Definition keeps_protocol (split : SplitFunc) : Prop :=
  forall data atEOF, exists adv tok,
    split data atEOF = Split adv tok None /\
    0 <= adv <= len data /\
    (tok = None -> adv = 0 /\ (atEOF = true -> data = [])) /\
    (forall t, tok = Some t ->
       prefix_of t data /\ len t <= adv /\ (t <> [] -> 0 < adv)).

(** A call of Scan returns, and a non-empty token consumes input. *)
Definition progress (bound : nat) (res : result (bool * Scanner)) : Prop :=
  exists b s', res = Ret (b, s') /\
    (b = true -> Text s' <> [] ->
     done s' = false /\ empties s' = 0%nat /\ (length (pending s') < bound)%nat).

Section Splits.
Context {engine : RegexpEngine}.

Lemma prefix_of_upto (data : bytes) i : prefix_of (upto data i) data.
Proof. exists (from data i). unfold upto, from. by rewrite take_drop. Qed.

Lemma prefix_of_refl (data : bytes) : prefix_of data data.
Proof. exists []. by rewrite app_nil_r. Qed.

Lemma prefix_of_trans (a b c : bytes) : prefix_of a b -> prefix_of b c -> prefix_of a c.
Proof. intros [x ->] [y ->]. exists (x ++ y). by rewrite app_assoc. Qed.

Lemma prefix_of_length (t data : bytes) : prefix_of t data -> len t <= len data.
Proof. intros [rest ->]. unfold len. rewrite length_app. lia. Qed.

Lemma dropCR_prefix (data : bytes) : prefix_of (dropCR data) data.
Proof.
  unfold dropCR. destruct (last data) as [c|] eqn:Hl; [|apply prefix_of_refl].
  destruct (Ascii.eqb c cr); [|apply prefix_of_refl].
  apply last_Some in Hl as [l' ->]. rewrite removelast_last. by exists [c].
Qed.

Lemma ScanLines_keeps_protocol : keeps_protocol ScanLines.
Proof.
  intros data atEOF. unfold ScanLines.
  destruct (atEOF && is_empty data) eqn:He.
  - apply andb_prop in He as [-> He%is_empty_true]. subst data.
    exists 0, None. repeat split; try done; simpl; lia.
  - unfold IndexByte. destruct (0 <=? Index data [newline]) eqn:Hi.
    + apply Z.leb_le in Hi. pose proof (Index_bounds _ _ Hi) as Hb.
      change (len [newline]) with 1 in Hb.
      eexists _, _. split; [reflexivity|]. split; [lia|]. split; [done|].
      intros t [= <-].
      pose proof (prefix_of_trans _ _ _ (dropCR_prefix (upto data (Index data [newline])))
                    (prefix_of_upto data (Index data [newline]))) as Hp.
      split; [done|]. split; [|lia].
      pose proof (prefix_of_length _ _ (dropCR_prefix (upto data (Index data [newline])))).
      rewrite len_upto in H by lia. lia.
    + destruct atEOF.
      * simpl in He. apply is_empty_false in He.
        eexists _, _. split; [reflexivity|]. pose proof (len_pos _ He).
        split; [lia|]. split; [done|]. intros t [= <-].
        split; [apply dropCR_prefix|]. split; [|lia].
        apply prefix_of_length, dropCR_prefix.
      * exists 0, None. pose proof (len_nonneg data).
        repeat split; try done; lia.
Qed.

(** The split function of a Reader keeps the protocol, whatever the
    Reader: the panic of createSplitFunc is never reached. *)
Lemma createSplitFunc_protocol r : keeps_protocol (createSplitFunc r).
Proof.
  destruct (decide (configured r)) as [Hc|Hc].
  - intros data atEOF. rewrite createSplitFunc_configured by done.
    destruct (atEOF && is_empty data) eqn:He.
    + apply andb_prop in He as [-> He%is_empty_true]. subst data.
      exists 0, None. repeat split; try done; simpl; lia.
    + destruct (boundary r data) as [[lo hi]|] eqn:Hm.
      * pose proof (boundary_bounds _ _ _ _ Hm) as [Hlo Hhi].
        eexists _, _. split; [reflexivity|]. split; [lia|]. split; [done|].
        intros t [= <-]. split; [apply prefix_of_upto|].
        rewrite len_upto by lia. split; [lia|].
        intros Ht. destruct (decide (lo = 0)) as [->|]; [|lia].
        by rewrite upto_0 in Ht.
      * destruct atEOF.
        -- simpl in He. apply is_empty_false in He. pose proof (len_pos _ He).
           eexists _, _. split; [reflexivity|]. split; [lia|]. split; [done|].
           intros t [= <-]. split; [apply prefix_of_refl|]. split; lia.
        -- exists 0, None. pose proof (len_nonneg data).
           repeat split; try done; lia.
  - assert (Hun : createSplitFunc r = ScanLines).
    { unfold createSplitFunc, configured in *.
      destruct (delimiter r); [exfalso; apply Hc; by left|].
      destruct (delimiterStr r); [done|]. exfalso. apply Hc. by right. }
    rewrite Hun. apply ScanLines_keeps_protocol.
Qed.

(** X1: the split function of a Reader, whatever the Reader, never panics
    (the panic of createSplitFunc is not reachable) and returns no error;
    its advance stays inside the data; a token is a prefix of the data, no
    longer than the advance, and consumes input unless it is empty; without
    a token nothing is consumed, and at the end of the input there is a
    token as long as data is left. *)
Theorem createSplitFunc_never_panics r data atEOF :
  exists adv tok,
    createSplitFunc r data atEOF = Split adv tok None /\
    0 <= adv <= len data /\
    (tok = None -> adv = 0 /\ (atEOF = true -> data = [])) /\
    (forall t, tok = Some t ->
       prefix_of t data /\ len t <= adv /\ (t <> [] -> 0 < adv)).
Proof. apply createSplitFunc_protocol. Qed.

(** *** Scan with a split function that keeps the protocol *)

Lemma try_split_protocol split s :
  keeps_protocol split -> done s = false -> empties s = 0%nat ->
  match try_split split s with
  | Done_ res => progress (length (pending s)) res
  | More s' =>
      buf s' = buf s /\ r s' = r s /\ r_final s' = r_final s /\ err s' = err s /\
      done s' = false /\ empties s' = 0%nat
  end.
Proof.
  intros Hp Hd He. unfold try_split.
  destruct (negb (is_empty (buf s)) || notnil (err s)) eqn:Hgo; [|done].
  destruct (Hp (buf s) (notnil (err s))) as (adv & tok & -> & Hrange & Hnone & Hsome).
  assert (H1 : (adv <? 0) = false) by lia.
  assert (H2 : (len (buf s) <? adv) = false) by lia.
  rewrite H1, H2. destruct tok as [t|].
  - destruct (Hsome t eq_refl) as (_ & _ & Hpos).
    destruct (negb (notnil (err s)) || (0 <? adv)) eqn:Hadv.
    + eexists _, _. split; [reflexivity|]. simpl. intros _ Ht.
      split; [done|]. split; [done|]. specialize (Hpos Ht).
      unfold pending. simpl. rewrite !length_app, length_from.
      unfold len in Hrange. lia.
    + rewrite He. simpl.
      eexists _, _. split; [reflexivity|]. simpl. intros _ Ht.
      specialize (Hpos Ht). apply orb_false_iff in Hadv as [_ Hadv]. lia.
  - destruct (Hnone eq_refl) as [-> _]. simpl. by rewrite from_0.
Qed.

Lemma pass_at_err_protocol split s :
  keeps_protocol split -> done s = false -> empties s = 0%nat ->
  progress (length (pending s)) (pass_at_err split s).
Proof.
  intros Hp Hd He. unfold pass_at_err.
  pose proof (try_split_protocol split s Hp Hd He) as H.
  destruct (try_split split s) as [res|s']; [done|].
  eexists _, _. split; [reflexivity | done].
Qed.

Lemma progress_le n m res : (n <= m)%nat -> progress n res -> progress m res.
Proof.
  intros Hnm (b & s' & -> & H). exists b, s'. split; [done|].
  intros Hb Ht. destruct (H Hb Ht) as (? & ? & ?). repeat split; auto. lia.
Qed.

Lemma progress_false bound s : progress bound (Ret (false, s)).
Proof. eexists _, _. split; [reflexivity | done]. Qed.

Lemma setErr_fields e s :
  r (setErr e s) = r s /\ buf (setErr e s) = buf s /\ done (setErr e s) = done s /\
  empties (setErr e s) = empties s.
Proof. unfold setErr. by destruct (err s) as [[]|]. Qed.

Lemma pending_setErr e s : pending (setErr e s) = pending s.
Proof.
  unfold pending. destruct (setErr_fields e s) as (-> & -> & _). done.
Qed.

Lemma read_more_protocol split :
  keeps_protocol split ->
  forall src loop s,
    done s = false -> empties s = 0%nat ->
    progress (length (buf s) + length (concat src)) (read_more split src loop s).
Proof.
  intros Hp. induction src as [|c src IH]; intros loop s Hd He;
    cbn [read_more];
    (destruct (MaxScanTokenSize <=? len (buf s)); [apply progress_false|]).
  - eapply progress_le; [|apply pass_at_err_protocol; [done| |]].
    + rewrite pending_setErr. unfold pending. simpl. rewrite length_app. simpl. lia.
    + by destruct (setErr_fields (r_final s)
        {| r := []; r_final := r_final s; buf := buf s; tok := tok s; err := err s;
           empties := empties s; done := done s |}) as (_ & _ & -> & _).
    + by destruct (setErr_fields (r_final s)
        {| r := []; r_final := r_final s; buf := buf s; tok := tok s; err := err s;
           empties := empties s; done := done s |}) as (_ & _ & _ & ->).
  - destruct (is_empty c) eqn:Hc0.
    + apply is_empty_true in Hc0. subst c. simpl.
      destruct (maxConsecutiveEmptyReads <? S loop)%nat; [|by apply IH].
      eapply progress_le; [|apply pass_at_err_protocol; [done| |]].
      * rewrite pending_setErr. unfold pending. simpl. rewrite length_app. lia.
      * by destruct (setErr_fields ErrNoProgress
          {| r := src; r_final := r_final s; buf := buf s; tok := tok s; err := err s;
             empties := empties s; done := done s |}) as (_ & _ & -> & _).
      * by destruct (setErr_fields ErrNoProgress
          {| r := src; r_final := r_final s; buf := buf s; tok := tok s; err := err s;
             empties := empties s; done := done s |}) as (_ & _ & _ & ->).
    + set (s1 := {| r := src; r_final := r_final s; buf := buf s ++ c; tok := tok s;
                    err := err s; empties := 0; done := done s |}).
      pose proof (try_split_protocol split s1 Hp Hd eq_refl) as H.
      destruct (try_split split s1) as [res|s2].
      * eapply progress_le; [|exact H].
        unfold pending, s1. simpl. rewrite !length_app. lia.
      * destruct H as (Hb2 & Hr2 & Hf2 & Herr2 & Hd2 & He2).
        destruct (err s2); [apply progress_false|].
        eapply progress_le; [|by apply IH].
        rewrite Hb2. unfold s1. simpl. rewrite !length_app. lia.
Qed.

(** Scan with a split function that keeps the protocol never panics, and
    every non-empty token it yields consumes input. *)
Lemma Scan_protocol split s :
  keeps_protocol split -> done s = false -> empties s = 0%nat ->
  progress (length (pending s)) (Scan split s).
Proof.
  intros Hp Hd He. unfold Scan. rewrite Hd.
  pose proof (try_split_protocol split s Hp Hd He) as H.
  destruct (try_split split s) as [res|s1]; [done|].
  destruct H as (Hb1 & Hr1 & Hf1 & Herr1 & Hd1 & He1).
  destruct (err s1); [apply progress_false|].
  eapply progress_le; [|by apply read_more_protocol].
  unfold pending. rewrite Hb1, Hr1, length_app. lia.
Qed.

(** The first call of Scan on a string reader offers the whole string to
    the split function. *)
Lemma Scan_string_reader split (data : bytes) :
  data <> [] ->
  Scan split (NewScanner (bufio.NewReader data)) =
    match try_split split {| r := []; r_final := EOF; buf := data; tok := None;
                             err := None; empties := 0; done := false |} with
    | Done_ res => res
    | More s2 =>
        match err s2 with
        | Some _ => shutdown s2
        | None => read_more split [] 0 s2
        end
    end.
Proof.
  intros Hd. apply is_empty_false in Hd.
  unfold Scan, NewScanner, bufio.NewReader. rewrite Hd. cbn [chunks final done].
  unfold try_split at 1. cbn [buf err is_empty negb notnil orb r].
  cbn [read_more buf].
  change (MaxScanTokenSize <=? len (@nil ascii)) with false. cbn iota.
  rewrite Hd. done.
Qed.

(** *** The tokens of a scan are tokens of the split function *)

(** [t] is a token the split function returns on some data. *)
Definition split_token (split : SplitFunc) (t : bytes) : Prop :=
  exists data atEOF adv e, split data atEOF = Split adv (Some t) e.

Definition from_split (split : SplitFunc) (res : result (bool * Scanner)) : Prop :=
  forall s', res = Ret (true, s') -> split_token split (Text s').

Lemma try_split_token split s :
  match try_split split s with
  | Done_ res => from_split split res
  | More _ => True
  end.
Proof.
  unfold try_split.
  destruct (negb (is_empty (buf s)) || notnil (err s)); [|done].
  destruct (split (buf s) (notnil (err s))) as [adv tok e|] eqn:Hs; [|done].
  destruct e as [e|].
  - destruct e; try (intros s' [=]; done).
    destruct tok as [t|]; intros s' [= <-]; simpl. by eexists _, _, _, _.
  - destruct (adv <? 0); [by intros s' [=]|].
    destruct (len (buf s) <? adv); [by intros s' [=]|].
    destruct tok as [t|]; [|done].
    destruct (negb (notnil (err s)) || (0 <? adv)).
    + intros s' [= <-]. simpl. by eexists _, _, _, _.
    + destruct (maxConsecutiveEmptyReads <? S (empties s))%nat; [done|].
      intros s' [= <-]. simpl. by eexists _, _, _, _.
Qed.

Lemma pass_at_err_token split s : from_split split (pass_at_err split s).
Proof.
  unfold pass_at_err. pose proof (try_split_token split s) as H.
  destruct (try_split split s); [done | by intros s' [=]].
Qed.

Lemma read_more_token split :
  forall src loop s, from_split split (read_more split src loop s).
Proof.
  induction src as [|c src IH]; intros loop s; cbn [read_more];
    (destruct (MaxScanTokenSize <=? len (buf s)); [by intros s' [=]|]).
  - apply pass_at_err_token.
  - destruct (is_empty c).
    + destruct (maxConsecutiveEmptyReads <? S loop)%nat;
        [apply pass_at_err_token | apply IH].
    + match goal with |- context [try_split split ?s1] =>
        pose proof (try_split_token split s1) as H;
        destruct (try_split split s1) as [res|s2]; [done|] end.
      destruct (err s2); [by intros s' [=] | apply IH].
Qed.

(** Every token Scan yields was returned by the split function. *)
Lemma Scan_split_token split s s' :
  Scan split s = Ret (true, s') -> split_token split (Text s').
Proof.
  unfold Scan. destruct (done s); [done|].
  pose proof (try_split_token split s) as H.
  destruct (try_split split s) as [res|s1]; [by intros Hr; apply H|].
  destruct (err s1); [done|]. intros Hr. by apply (read_more_token split (r s1) 0%nat s1).
Qed.

End Splits.
End split_facts.

(** ** reader.go: ReadTokens and StreamTokens on every Reader *)

Module reader_facts.
Import bufio reader reader_scan split_facts.

Section Facts.
Context {engine : RegexpEngine}.

(** *** The calls return *)

Lemma ReadTokens_loop_returns caller r :
  forall fuel sc n acc,
    done sc = false -> empties sc = 0%nat -> (length (pending sc) < fuel)%nat ->
    exists x, ReadTokens_loop fuel caller r sc n acc = Ret x.
Proof.
  induction fuel as [|fuel IH]; intros sc n acc Hd He Hlt; [lia|].
  cbn [ReadTokens_loop].
  destruct (Scan_protocol (createSplitFunc r) sc (createSplitFunc_protocol r) Hd He)
    as (b & s' & -> & H).
  destruct b; [|eauto].
  destruct (is_empty (Text s')) eqn:Ht; [eauto|]. apply is_empty_false in Ht.
  destruct (H eq_refl Ht) as (Hd' & He' & Hlt').
  destruct (refused r (normalized r (Text s'))).
  - destruct (FailOnInvalid r); [eauto|]. apply IH; auto; lia.
  - apply IH; auto; lia.
Qed.

Lemma StreamTokens_loop_returns caller r ctx :
  forall fuel sc n k out,
    done sc = false -> empties sc = 0%nat -> (length (pending sc) < fuel)%nat ->
    (exists x, StreamTokens_loop fuel caller r ctx sc n k out = Ret x) \/
    StreamTokens_loop fuel caller r ctx sc n k out = Blocked.
Proof.
  induction fuel as [|fuel IH]; intros sc n k out Hd He Hlt; [lia|].
  cbn [StreamTokens_loop].
  destruct (Scan_protocol (createSplitFunc r) sc (createSplitFunc_protocol r) Hd He)
    as (b & s' & -> & H).
  destruct b; [|eauto].
  destruct (is_empty (Text s')) eqn:Ht; [eauto|]. apply is_empty_false in Ht.
  destruct (H eq_refl Ht) as (Hd' & He' & Hlt').
  destruct (refused r (normalized r (Text s'))).
  - destruct (FailOnInvalid r); [eauto|]. apply IH; auto; lia.
  - destruct (select (handoffs ctx k)); [|eauto|by right]. apply IH; auto; lia.
Qed.

(** X2: ReadTokens returns for every Reader, on every source that ends:
    it does not panic (the panic of createSplitFunc and the scanner's
    panics are never reached) and its loop ends.  StreamTokens returns as
    well, unless it blocks at a handoff that neither the consumer nor the
    context ends. *)
Theorem ReadTokens_returns caller r ctx :
  (exists toks e, ReadTokens caller r = Ret (toks, e)) /\
  ((exists out e, StreamTokens caller r ctx = Ret (out, e)) \/
   StreamTokens caller r ctx = Blocked).
Proof.
  assert (Hlt : (length (pending (NewScanner (reader r))) < passes (reader r))%nat).
  { rewrite pending_NewScanner. unfold passes. lia. }
  split.
  - unfold ReadTokens, ReadTokens_exit.
    destruct (ReadTokens_loop_returns caller r (passes (reader r))
                (NewScanner (reader r)) 0 [] eq_refl eq_refl Hlt) as [x ->]; eauto.
  - unfold StreamTokens, StreamTokens_exit.
    destruct (StreamTokens_loop_returns caller r ctx (passes (reader r))
                (NewScanner (reader r)) 0 0%nat [] eq_refl eq_refl Hlt)
      as [[x ->] | ->]; eauto.
Qed.

(** *** Streaming against the batch read *)

Lemma StreamTokens_loop_ReadTokens_loop caller r ctx :
  (forall k, select (handoffs ctx k) = Sent) ->
  forall fuel sc n k out,
    StreamTokens_loop fuel caller r ctx sc n k out =
    ReadTokens_loop fuel caller r sc n out.
Proof.
  intros Hsent. induction fuel as [|fuel IH]; intros sc n k out; [done|].
  cbn [StreamTokens_loop ReadTokens_loop].
  destruct (Scan (createSplitFunc r) sc) as [[[] s']| | |]; try done.
  destruct (is_empty (Text s')); [done|].
  destruct (refused r (normalized r (Text s'))).
  - destruct (FailOnInvalid r); [done | apply IH].
  - rewrite Hsent. apply IH.
Qed.

(** X3: with a consumer that takes every token before the context is done,
    StreamTokens delivers the tokens ReadTokens returns, in the same order,
    and returns the same error. *)
Theorem StreamTokens_delivers_what_ReadTokens_returns caller r ctx :
  (forall k, select (handoffs ctx k) = Sent) ->
  StreamTokens caller r ctx = ReadTokens caller r.
Proof.
  intros Hsent. unfold StreamTokens, StreamTokens_exit, ReadTokens, ReadTokens_exit.
  by rewrite StreamTokens_loop_ReadTokens_loop.
Qed.

(** *** The errors ReadTokens returns *)

(** An Invalid error of this Reader: tagged Invalid, raised only with
    FailOnInvalid set, carrying a token the filter refuses and an offset,
    wrapping nothing. *)
Definition invalid_error (r : Reader) (e : error) : Prop :=
  Is e ErrInvalid = true /\ Is e ErrRead = false /\ FailOnInvalid r = true /\
  refused r (Token e) = true /\ Unwrap e = None /\ 0 <= ErrIndex e.

(** A Read error of this Reader: tagged Read, raised only with FailOnError
    set, wrapping the scanner's error (never io.EOF), with no token and the
    offset -1. *)
Definition read_error (r : Reader) (e : error) : Prop :=
  Is e ErrRead = true /\ Is e ErrInvalid = false /\ FailOnError r = true /\
  Token e = [] /\ ErrIndex e = -1 /\
  exists cause, Unwrap e = Some cause /\ cause <> EOF.

Lemma after_loop_error caller r sc n tokens e :
  x_err (after_loop caller r sc n tokens) = Some e -> read_error r e.
Proof.
  unfold after_loop. destruct (Err sc) as [e0|] eqn:HE; [|done].
  destruct (FailOnError r) eqn:Hf; [|done]. simpl. intros [= <-].
  repeat split; try done. exists e0. split; [done|].
  intros ->. unfold Err in HE. by destruct (err sc) as [[]|].
Qed.



Lemma StreamTokens_loop_error caller r ctx e :
  forall fuel sc n k out x,
    0 <= n ->
    StreamTokens_loop fuel caller r ctx sc n k out = Ret x -> x_err x = Some e ->
    invalid_error r e \/ read_error r e \/ e = ctx_Err ctx.
Proof.
  induction fuel as [|fuel IH]; intros sc n k out x Hn; [done|].
  cbn [StreamTokens_loop].
  destruct (Scan (createSplitFunc r) sc) as [[[] s']| | |]; try done.
  - destruct (is_empty (Text s')).
    { intros [= <-] He. right. left. by eapply after_loop_error. }
    pose proof (len_nonneg (normalized r (Text s'))).
    destruct (refused r (normalized r (Text s'))) eqn:Href.
    + destruct (FailOnInvalid r) eqn:Hfi.
      * intros [= <-]. simpl. intros [= <-]. left. repeat split; done.
      * apply IH. lia.
    + destruct (select (handoffs ctx k)); [apply IH; lia | | done].
      intros [= <-]. simpl. intros [= <-]. by right; right.
  - intros [= <-] He. right. left. by eapply after_loop_error.
Qed.

(** X5: an error returned by StreamTokens is an Invalid error, a Read
    error, each only under its flag, or the error of the context itself,
    not wrapped. *)
Theorem StreamTokens_error_kinds caller r ctx out e :
  StreamTokens caller r ctx = Ret (out, Some e) ->
  invalid_error r e \/ read_error r e \/ e = ctx_Err ctx.
Proof.
  unfold StreamTokens, StreamTokens_exit.
  destruct (StreamTokens_loop _ caller r ctx _ 0 0%nat []) as [x| | |] eqn:Hx; try done.
  intros [= _ He]. by eapply (StreamTokens_loop_error caller r ctx e _ _ 0 0%nat [] x).
Qed.

(** *** The tokens ReadTokens returns *)




(** *** Literal delimiters *)

Lemma Contains_before_Index (data sep : bytes) :
  sep <> [] -> 0 <= Index data sep -> Contains (upto data (Index data sep)) sep = false.
Proof.
  intros Hsep. unfold Contains, Index, upto.
  destruct (index_of data sep) as [i|] eqn:Hi; [|lia]. intros _.
  rewrite Nat2Z.id.
  destruct (index_of (take i data) sep) as [j|] eqn:Hj; [|done]. exfalso.
  apply index_of_Some in Hj as [Hp Hlen].
  assert (Hji : (j < i)%nat).
  { rewrite length_take in Hlen. destruct sep; [done | simpl in Hlen; lia]. }
  pose proof (index_of_first _ _ _ j Hi Hji) as Hno.
  rewrite <- (take_drop i data) in Hno.
  rewrite drop_app_le in Hno by (rewrite length_take in *; lia).
  rewrite (has_prefix_app_l _ _ _ Hp) in Hno. done.
Qed.

Lemma upto_through_Index (data sep : bytes) :
  0 <= Index data sep ->
  upto data (Index data sep + len sep) = upto data (Index data sep) ++ sep.
Proof.
  unfold Index, upto, len. destruct (index_of data sep) as [i|] eqn:Hi; [|lia].
  intros _. apply index_of_Some in Hi as [Hp Hlen].
  replace (Z.to_nat (Z.of_nat i + Z.of_nat (length sep))) with (i + length sep)%nat by lia.
  rewrite Nat2Z.id. apply has_prefix_app in Hp.
  rewrite <- (take_drop i data) at 1. rewrite Hp.
  rewrite take_app_ge by (rewrite length_take; lia).
  rewrite length_take. replace (i + length sep - i `min` length data)%nat
    with (length sep) by lia.
  by rewrite take_app_length.
Qed.

Lemma literal_boundary r data :
  delimiter r = None ->
  boundary r data =
    if 0 <=? Index data (delimiterStr r)
    then Some (Index data (delimiterStr r), Index data (delimiterStr r) + len (delimiterStr r))
    else None.
Proof. intros Hd. unfold boundary. by rewrite Hd. Qed.

(** X7: with a literal delimiter, a token the split function returns does
    not contain the delimiter, and the bytes consumed are the token followed
    by the delimiter (or, at the end of the input, the token alone). *)
Theorem createSplitFunc_literal_token r data atEOF adv t e :
  delimiter r = None -> delimiterStr r <> [] ->
  createSplitFunc r data atEOF = Split adv (Some t) e ->
  Contains t (delimiterStr r) = false /\
  (upto data adv = t ++ delimiterStr r \/
   (atEOF = true /\ t = data /\ adv = len data)).
Proof.
  intros Hd Hsep. rewrite createSplitFunc_configured by (by right).
  destruct (atEOF && is_empty data); [done|].
  rewrite literal_boundary by done.
  destruct (0 <=? Index data (delimiterStr r)) eqn:Hi.
  - apply Z.leb_le in Hi. intros [= <- <- _]. split.
    + by apply Contains_before_Index.
    + left. by apply upto_through_Index.
  - destruct atEOF; [|done]. intros [= <- <- _]. split.
    + unfold Contains. done.
    + by right.
Qed.

Lemma split_token_literal r t :
  delimiter r = None -> delimiterStr r <> [] ->
  split_token (createSplitFunc r) t -> Contains t (delimiterStr r) = false.
Proof.
  intros Hd Hsep (data & atEOF & adv & e & Hs). revert Hs.
  rewrite createSplitFunc_configured by (by right).
  destruct (atEOF && is_empty data); [done|].
  rewrite literal_boundary by done.
  destruct (0 <=? Index data (delimiterStr r)) eqn:Hi.
  - apply Z.leb_le in Hi. intros [= _ <- _]. by apply Contains_before_Index.
  - destruct atEOF; [|done]. intros [= _ <- _]. unfold Contains. done.
Qed.

Lemma ReadTokens_loop_literal caller r :
  delimiter r = None -> delimiterStr r <> [] -> normalize r = None ->
  forall fuel sc n acc x,
    Forall (fun t => Contains t (delimiterStr r) = false) acc ->
    ReadTokens_loop fuel caller r sc n acc = Ret x ->
    Forall (fun t => Contains t (delimiterStr r) = false) (x_tokens x).
Proof.
  intros Hd Hsep Hn.
  induction fuel as [|fuel IH]; intros sc n acc x Hacc; [done|].
  cbn [ReadTokens_loop].
  destruct (Scan (createSplitFunc r) sc) as [[[] s']| | |] eqn:Hscan; try done.
  - destruct (is_empty (Text s')) eqn:Ht.
    { intros [= <-]. unfold after_loop.
      destruct (Err s'); [destruct (FailOnError r)|]; done. }
    assert (Hnorm : normalized r (Text s') = Text s') by (unfold normalized; by rewrite Hn).
    rewrite Hnorm.
    destruct (refused r (Text s')) eqn:Href.
    + destruct (FailOnInvalid r); [by intros [= <-] | by apply IH].
    + apply IH. apply Forall_app. split; [done|].
      constructor; [|done]. apply split_token_literal; [done | done |].
      by eapply Scan_split_token.
  - intros [= <-]. unfold after_loop.
    destruct (Err s'); [destruct (FailOnError r)|]; done.
Qed.

(** X8: with a literal delimiter and no normalizer, no token ReadTokens
    returns contains the delimiter, whatever the source and however it is
    read. *)
Theorem ReadTokens_tokens_without_delimiter caller r toks e :
  delimiter r = None -> delimiterStr r <> [] -> normalize r = None ->
  ReadTokens caller r = Ret (toks, e) ->
  Forall (fun t => Contains t (delimiterStr r) = false) toks.
Proof.
  intros Hd Hsep Hn. unfold ReadTokens, ReadTokens_exit.
  destruct (ReadTokens_loop _ caller r _ 0 []) as [x| | |] eqn:Hx; try done.
  intros [= <- _]. by eapply (ReadTokens_loop_literal caller r Hd Hsep Hn _ _ 0 [] x).
Qed.

(** *** Sources *)

Lemma MultiReader_flat (a b : list Source) :
  MultiReader (MultiReader a :: b) = MultiReader (a ++ b).
Proof.
  induction a as [|x a IH].
  - simpl. by destruct (MultiReader b).
  - cbn [app]. cbn [MultiReader] in *. rewrite <- IH. clear IH.
    destruct (final x); simpl; try done.
    destruct (final (MultiReader a)); simpl; try done.
    by rewrite app_assoc.
Qed.

(** X11: AddReaders appends to the input: after SetReaders(rs1...) and
    AddReaders(rs2...) the Reader is the one SetReaders(rs1..., rs2...)
    gives. *)
Theorem AddReaders_appends rs1 rs2 r :
  AddReaders rs2 (SetReaders rs1 r) = SetReaders (rs1 ++ rs2) r.
Proof.
  unfold AddReaders, SetReaders.
  cbn [reader delimiter delimiterStr normalize filter FailOnError FailOnInvalid].
  by rewrite MultiReader_flat.
Qed.

(** *** The two forms of the delimiter *)

(** r.FailOnError = b *)
Definition SetFailOnError (b : bool) (r : Reader) : Reader :=
  {| reader := reader r; delimiter := delimiter r; delimiterStr := delimiterStr r;
     normalize := normalize r; filter := filter r;
     FailOnError := b; FailOnInvalid := FailOnInvalid r |}.

(** The Readers the constructor, the setters and the exported fields can
    produce (the builders call the setters on a copy). *)
Inductive reachable : Reader -> Prop :=
| reach_NewReader stdin : reachable (NewReader stdin)
| reach_SetReaders rs r : reachable r -> reachable (SetReaders rs r)
| reach_AddReaders rs r : reachable r -> reachable (AddReaders rs r)
| reach_SetDelimiterStr s r : reachable r -> reachable (SetDelimiterStr s r)
| reach_SetDelimiter re r : reachable r -> reachable (SetDelimiter re r)
| reach_SetDelimiterFromString expr r r' :
    reachable r -> SetDelimiterFromString expr r = Ret r' -> reachable r'
| reach_SetNormalizer f r : reachable r -> reachable (SetNormalizer f r)
| reach_SetFilter f r : reachable r -> reachable (SetFilter f r)
| reach_FailOnError b r : reachable r -> reachable (SetFailOnError b r)
| reach_FailOnInvalid b r : reachable r -> reachable (SetFailOnInvalid b r).

(** X12: in every Reader the constructor and the setters produce, the
    compiled delimiter and the literal delimiter are not set at the same
    time. *)
Theorem reachable_delimiter_forms r :
  reachable r -> delimiter r = None \/ delimiterStr r = [].
Proof.
  induction 1 as [| | | | | expr r r' _ _ Hset | | | |]; simpl; auto.
  unfold SetDelimiterFromString in Hset.
  destruct (MustCompile expr); [|done]. injection Hset as <-. by right.
Qed.

(** *** ReadTokens on a source that ends cleanly *)

Lemma ReadTokens_on_reads caller r input :
  configured r -> reads r input ->
  no_fatal r (before_empty (reference_split (boundary r) input)) ->
  ReadTokens caller r =
    Ret (kept r (before_empty (reference_split (boundary r) input)), None).
Proof.
  intros Hc Hr Hnf.
  pose proof (ready_NewScanner r input Hr) as Hready.
  destruct Hr as (_ & _ & Hcat & _ & Hfit).
  destruct (Scans_reference r Hc _ _ Hready (Nat.le_refl _))
    as (s1 & b & s2 & HS & Hlast & HE & Hb);
    [by rewrite pending_NewScanner, Hcat|].
  rewrite pending_NewScanner, Hcat in HS.
  destruct (ReadTokens_exit_Scans caller r _ _ Hc HS (before_empty_nonempty _) Hnf)
    as (fuel & Hexit).
  unfold ReadTokens. rewrite Hexit. cbn [ReadTokens_loop]. rewrite Hlast.
  destruct b.
  - rewrite (Hb eq_refl). simpl. unfold after_loop. by rewrite HE.
  - unfold after_loop. by rewrite HE.
Qed.







Lemma chunks_NewReader (s : bytes) :
  Forall (fun c => c <> []) (chunks (bufio.NewReader s)) /\
  concat (chunks (bufio.NewReader s)) = s /\ final (bufio.NewReader s) = EOF.
Proof.
  unfold bufio.NewReader. destruct s; simpl; [done|].
  rewrite app_nil_r. repeat split; auto.
Qed.

Lemma reads_string_readers r (ss : list bytes) :
  delimiter r = None -> len (concat ss) < MaxScanTokenSize ->
  reads (SetReaders (map bufio.NewReader ss) r) (concat ss).
Proof.
  intros Hd Hfit.
  assert (H : Forall (fun c => c <> []) (chunks (MultiReader (map bufio.NewReader ss))) /\
              concat (chunks (MultiReader (map bufio.NewReader ss))) = concat ss /\
              final (MultiReader (map bufio.NewReader ss)) = EOF).
  { clear. induction ss as [|s ss (IH1 & IH2 & IH3)]; [done|].
    destruct (chunks_NewReader s) as (H1 & H2 & H3).
    cbn [map MultiReader]. rewrite H3. cbn [chunks final].
    split; [by apply Forall_app|]. split; [|done].
    by rewrite concat_app, H2, IH2. }
  destruct H as (H1 & H2 & H3). repeat split; auto.
Qed.

(** X10: with a literal delimiter and FailOnInvalid off, the tokens do not
    depend on how the input is divided among the readers: reading the
    strings [ss] one after the other gives what reading their concatenation
    gives, so a token may span two readers. *)
Theorem tokens_span_readers caller r (ss : list bytes) :
  delimiter r = None -> delimiterStr r <> [] -> FailOnInvalid r = false ->
  len (concat ss) < MaxScanTokenSize ->
  ReadTokens caller (SetReaders (map bufio.NewReader ss) r) =
  ReadTokens caller (SetReaders [bufio.NewReader (concat ss)] r).
Proof.
  intros Hd Hsep Hfi Hfit.
  assert (Hnf : forall rs raw, no_fatal (SetReaders rs r) raw).
  { intros rs raw. apply Forall_forall. by intros t _ _. }
  rewrite (ReadTokens_on_reads caller _ (concat ss));
    [|by right | by apply reads_string_readers | apply Hnf].
  rewrite (ReadTokens_on_reads caller (SetReaders [bufio.NewReader (concat ss)] r)
             (concat ss)); [done | by right | | apply Hnf].
  pose proof (reads_string_readers r [concat ss] Hd) as H.
  cbn [map concat] in H. rewrite app_nil_r in H. by apply H.
Qed.

End Facts.


End reader_facts.

(** ** The Delimiters: split functions and reachable values *)

Module pattern_facts.
Import bufio split_facts.

Section Facts.
Context {engine : RegexpEngine}.

(** *** The Delimiter with one pattern *)

(** The Reader of reader.go with the pattern of [d] as its delimiter. *)
Definition as_reader (d : delimiter.Delimiter) : reader.Reader :=
  {| reader.reader := bufio.NewReader []; reader.delimiter := delimiter.regexpr d;
     reader.delimiterStr := delimiter.str d; reader.normalize := None;
     reader.filter := None; reader.FailOnError := true; reader.FailOnInvalid := false |}.

Lemma SplitFunc_as_reader d :
  delimiter_facts.one_form d ->
  delimiter.SplitFunc d = reader.createSplitFunc (as_reader d).
Proof.
  intros [[Hre Hs] | [Hre Hs]]; unfold delimiter.SplitFunc, reader.createSplitFunc; simpl.
  - by destruct (delimiter.regexpr d).
  - rewrite Hre. by destruct (delimiter.str d).
Qed.

(** X16: a Delimiter made by DefaultDelimiter and the Set and With methods
    has exactly one of its two forms set, so its split function never
    reaches its panic and keeps the scanner's protocol, and MatchString
    returns. *)
Theorem reachable_Delimiter_never_panics d :
  delimiter.reachable d ->
  delimiter_facts.one_form d /\
  keeps_protocol (delimiter.SplitFunc d) /\
  (forall s, exists b, delimiter.MatchString d s = Ret b).
Proof.
  intros Hr. pose proof (delimiter_facts.reachable_one_form d Hr) as Hone.
  split; [done|]. split.
  - rewrite SplitFunc_as_reader by done. apply createSplitFunc_protocol.
  - intros s. unfold delimiter.MatchString.
    destruct Hone as [[Hre Hs] | [Hre Hs]].
    + destruct (delimiter.regexpr d); [eauto | done].
    + rewrite Hre. destruct (delimiter.str d); [done | eauto].
Qed.

(** *** The Delimiter with a token and a stop pattern *)

Import stopdelim.

Lemma find_in_range p data i w :
  find p data = (i, w) ->
  (i = -1 /\ w = 0) \/ (0 <= i /\ 0 <= w /\ i + w <= len data).
Proof.
  unfold find. destruct p as [p|]; [|intros [= <- <-]; by left].
  destruct (re p) as [regexpr|].
  - destruct (FindIndex regexpr data) as [[lo hi]|] eqn:Hf; [|intros [= <- <-]; by left].
    apply FindIndex_bounds in Hf. intros [= <- <-]. right. lia.
  - destruct (negb (is_empty (str p))); [|intros [= <- <-]; by left].
    destruct (Index data (str p) <? 0) eqn:Hi; [intros [= <- <-]; by left|].
    intros [= <- <-]. right. apply Z.ltb_ge in Hi.
    pose proof (Index_bounds _ _ Hi). pose proof (len_nonneg (str p)). lia.
Qed.

(** X18: the split function of a Delimiter never panics; its advance stays
    inside the data and its token is a prefix of the data; the only error
    it returns is bufio.ErrFinalToken, always with a nil token, and it
    returns it whenever it is called at the end of the input with no data
    left. *)
Theorem SplitFunc_contract d data atEOF :
  (exists adv tok e,
     SplitFunc d data atEOF = Split adv tok e /\
     0 <= adv <= len data /\
     (e = None \/ (e = Some ErrFinalToken /\ tok = None)) /\
     (forall t, tok = Some t -> prefix_of t data)) /\
  SplitFunc d [] true = Split 0 None (Some ErrFinalToken).
Proof.
  split; [|done]. unfold SplitFunc.
  destruct (atEOF && is_empty data).
  { exists 0, None, (Some ErrFinalToken). pose proof (len_nonneg data).
    repeat split; try done; try lia. by right. }
  destruct (find (Some (token d)) data) as [ti tw] eqn:Ht.
  assert (Hs : exists si sw,
    (if enabled (stop d) then find (Some (stop d)) data else (-1, 0)) = (si, sw) /\
    ((si = -1 /\ sw = 0) \/ (0 <= si /\ 0 <= sw /\ si + sw <= len data))).
  { destruct (enabled (stop d)).
    - destruct (find (Some (stop d)) data) as [si sw] eqn:Hs.
      exists si, sw. split; [done|]. by eapply find_in_range.
    - exists (-1), 0. split; [done|]. by left. }
  destruct Hs as (si & sw & -> & Hsb).
  apply find_in_range in Ht. pose proof (len_nonneg data).
  destruct ((0 <=? si) && ((ti <? 0) || (si <? ti))) eqn:Hstop.
  - apply andb_prop in Hstop as [Hsi _]. apply Z.leb_le in Hsi.
    destruct (0 <? si) eqn:Hpos.
    + eexists _, _, _. split; [reflexivity|]. split; [lia|]. split; [by left|].
      intros t [= <-]. apply prefix_of_upto.
    + eexists _, _, _. split; [reflexivity|]. split; [lia|]. split; [by right|]. done.
  - destruct (0 <=? ti) eqn:Hti.
    + apply Z.leb_le in Hti.
      eexists _, _, _. split; [reflexivity|]. split; [lia|]. split; [by left|].
      intros t [= <-]. apply prefix_of_upto.
    + destruct atEOF.
      * eexists _, _, _. split; [reflexivity|]. split; [lia|]. split; [by left|].
        intros t [= <-]. apply prefix_of_refl.
      * eexists _, _, _. split; [reflexivity|]. split; [lia|]. split; [by left|]. done.
Qed.

(** Literal patterns: matches in what follows a position. *)





End Facts.
End pattern_facts.

(** ** The ReaderCloser: SetReaders, FromFile and Close *)

Module closer_facts.
Import bufio readercloser.

Section Facts.
Context {engine : RegexpEngine} {resources : Resources}.

Lemma Close_eq caller rc st v :
  rcs st !! rc = Some v ->
  Close caller rc st =
    Ret ((Close_loop caller (closers v) (world st) None).2,
         {| readers := readers st;
            rcs := <[rc := {| Reader_ptr := Reader_ptr v; closers := [] |}]> (rcs st);
            world := (close_each (closers v) (world st)).1 |}).
Proof.
  intros Hv. unfold Close. rewrite Hv.
  rewrite builder_facts.Close_loop_spec.
  by destruct (close_each (closers v) (world st)).
Qed.

(** X21: Close leaves the ReaderCloser tracking nothing, so a second Close
    closes nothing, returns nil, and changes nothing. *)
Theorem Close_twice caller rc st e1 st1 :
  Close caller rc st = Ret (e1, st1) ->
  Close caller rc st1 = Ret (None, st1).
Proof.
  destruct (rcs st !! rc) as [v|] eqn:Hv; [|unfold Close; by rewrite Hv].
  rewrite (Close_eq caller rc st v Hv). intros [= _ <-].
  rewrite (Close_eq caller rc _ {| Reader_ptr := Reader_ptr v; closers := [] |})
    by (simpl; apply lookup_insert_eq).
  simpl. by rewrite insert_insert_eq.
Qed.

Lemma SetReaders_eq caller rs rc st v p r0 :
  rcs st !! rc = Some v -> Reader_ptr v = Some p -> readers st !! p = Some r0 ->
  SetReaders caller rs rc st =
    Ret {| readers := alter (Reader_SetReaders (map in_source rs)) p (readers st);
           rcs := <[rc := {| Reader_ptr := Some p; closers := omap in_closer rs |}]> (rcs st);
           world := (close_each (closers v) (world st)).1 |}.
Proof.
  intros Hv Hp Hr. unfold SetReaders. rewrite (Close_eq caller rc st v Hv).
  cbn [rcs readers world]. rewrite lookup_insert_eq. cbn [Reader_ptr].
  rewrite Hp, Hr. by rewrite insert_insert_eq.
Qed.

(** X22: SetReaders closes every resource the ReaderCloser tracked, in
    order, whatever the closes return; afterwards the ReaderCloser reads the
    new readers one after the other and tracks exactly those of them that
    are closers, in the order given; no other ReaderCloser value changes. *)
Theorem SetReaders_closes_and_tracks caller rs rc st v p r0 :
  rcs st !! rc = Some v -> Reader_ptr v = Some p -> readers st !! p = Some r0 ->
  exists st',
    SetReaders caller rs rc st = Ret st' /\
    config rc st' = Some (Reader_SetReaders (map in_source rs) r0, omap in_closer rs) /\
    world st' = (close_each (closers v) (world st)).1 /\
    (forall rc', rc' <> rc -> rcs st' !! rc' = rcs st !! rc').
Proof.
  intros Hv Hp Hr. eexists. split; [by apply (SetReaders_eq caller rs rc st v p r0)|].
  split; [|split; [done|]].
  - unfold config. cbn [rcs readers]. rewrite lookup_insert_eq. simpl.
    rewrite lookup_alter_eq, Hr. done.
  - intros rc' Hne. cbn [rcs]. by rewrite lookup_insert_ne.
Qed.

Lemma WithReaders_result caller rs rc st v p r0 :
  rcs st !! rc = Some v -> Reader_ptr v = Some p -> readers st !! p = Some r0 ->
  exists q st',
    WithReaders caller rs rc st = Ret (q, st') /\
    rcs st !! q = None /\
    config q st' = Some (Reader_SetReaders (map in_source rs) r0, omap in_closer rs) /\
    world st' = (close_each (closers v) (world st)).1.
Proof.
  intros Hv Hp Hr. unfold WithReaders, copy_then. rewrite Hv.
  set (q := fresh (dom (rcs st))).
  assert (Hq : rcs st !! q = None).
  { apply (not_elem_of_dom (D := gset nat)). apply is_fresh. }
  rewrite (SetReaders_eq caller _ q _ v p r0);
    [|cbn [rcs]; apply lookup_insert_eq | done | done].
  eexists q, _. split; [reflexivity|]. split; [done|]. split; [|done].
  unfold config. cbn [rcs readers]. rewrite lookup_insert_eq. simpl.
  rewrite lookup_alter_eq, Hr. done.
Qed.

(** X23: WithReaders, and FromString and FromBytes, which are WithReaders of
    one string reader, close every resource the receiver tracks and return
    a new ReaderCloser value that reads the new readers and tracks those of
    them that are closers. *)
Theorem WithReaders_closes_and_tracks caller rs rc st v p r0 :
  rcs st !! rc = Some v -> Reader_ptr v = Some p -> readers st !! p = Some r0 ->
  (exists q st',
     WithReaders caller rs rc st = Ret (q, st') /\
     rcs st !! q = None /\
     config q st' = Some (Reader_SetReaders (map in_source rs) r0, omap in_closer rs) /\
     world st' = (close_each (closers v) (world st)).1) /\
  (forall s, FromString caller s rc st =
             WithReaders caller [ {| in_source := bufio.NewReader s; in_closer := None |} ]
                         rc st) /\
  (forall b, FromBytes caller b rc st =
             WithReaders caller [ {| in_source := bufio.NewReader b; in_closer := None |} ]
                         rc st).
Proof.
  intros Hv Hp Hr. split; [by apply (WithReaders_result caller rs rc st v p r0)|]. done.
Qed.

(** X24: FromFile on a path that cannot be opened returns no ReaderCloser
    and an error, and closes nothing; on a path that opens it closes what
    the receiver tracked and returns a new ReaderCloser that reads the file
    and tracks it alone. *)
Theorem FromFile_opens_or_fails caller path rc st v p r0 :
  rcs st !! rc = Some v -> Reader_ptr v = Some p -> readers st !! p = Some r0 ->
  match open path (world st) with
  | (w, inr err) =>
      exists e, FromFile caller path rc st =
                Ret (None, Some e,
                     {| readers := readers st; rcs := rcs st; world := w |})
  | (w, inl (file, contents)) =>
      exists q st',
        FromFile caller path rc st = Ret (Some q, None, st') /\
        rcs st !! q = None /\
        config q st' = Some (Reader_SetReaders [contents] r0, [file]) /\
        world st' = (close_each (closers v) w).1
  end.
Proof.
  intros Hv Hp Hr. unfold FromFile.
  destruct (open path (world st)) as [w [[file contents]|err]]; [|eauto].
  destruct (WithReaders_result caller [ {| in_source := contents; in_closer := Some file |} ]
              rc {| readers := readers st; rcs := rcs st; world := w |} v p r0 Hv Hp Hr)
    as (q & st' & Heq & Hq & Hcfg & Hw).
  unfold WithReaders in Heq. rewrite Heq. by exists q, st'.
Qed.

End Facts.
End closer_facts.

(** ** errors.go: the call site kept in a ReaderError *)

Module error_facts.

Definition FileName (e : error) : string :=
  match e with ReaderErr _ _ _ _ f _ _ => f | _ => EmptyString end.
Definition FuncName (e : error) : string :=
  match e with ReaderErr _ _ _ _ _ g _ => g | _ => EmptyString end.







End error_facts.

(** ** The Reader with a Delimiter and an end delimiter

    The Reader that the ReaderCloser embeds: it scans with the split
    function of its *Delimiter and ends the scan at a token that matches its
    end delimiter.  Its loops have no bound of their own (an expression
    that matches the empty text yields empty tokens for ever), so the calls
    take the number of passes allowed. *)

Module endreader.
Import bufio readercloser reader_scan.


Section Reader.
Context {engine : RegexpEngine}.

(** r.delimiter.SplitFunc(): the method value of a nil *Delimiter is made
    without a dereference; the closure dereferences it when it first reads
    a field. *)
Definition SplitFunc_of (d : option delimiter.Delimiter) : SplitFunc :=
  match d with
  | Some d => delimiter.SplitFunc d
  | None => fun data atEOF =>
      if atEOF && is_empty data then Split 0 None None
      else SplitPanic "invalid memory address or nil pointer dereference"
  end.

(** r.endDelimiter != nil && r.endDelimiter.MatchString(token) *)
Definition at_end (r : Reader) (token : bytes) : result bool :=
  match endDelimiter r with
  | None => Ret false
  | Some d => delimiter.MatchString d token
  end.

Definition normalized (r : Reader) (token : bytes) : bytes :=
  match normalize r with Some f => f token | None => token end.

Definition refused (r : Reader) (token : bytes) : bool :=
  match filter r with Some f => negb (f token) | None => false end.

(** The statements after the loop of ReadTokens. *)
Definition after_loop (caller : CallSite) (r : Reader) (sc : Scanner)
    (tokens : list bytes) : list bytes * option error :=
  match Err sc with
  | Some e => if FailOnError r then (tokens, Some (newErrRead caller e)) else (tokens, None)
  | None => (tokens, None)
  end.

Fixpoint ReadTokens_loop (fuel : nat) (caller : CallSite) (r : Reader)
    (sc : Scanner) (n : Z) (tokens : list bytes) : result (list bytes * option error) :=
  match fuel with
  | O => OutOfFuel
  | S fuel' =>
      match Scan (SplitFunc_of (delimiter r)) sc with
      | Ret (true, sc') =>
          match at_end r (Text sc') with
          | Ret true => Ret (after_loop caller r sc' tokens)
          | Ret false =>
              let token := normalized r (Text sc') in
              if refused r token then
                if FailOnInvalid r
                then Ret (tokens, Some (newErrInvalid caller token n))
                else ReadTokens_loop fuel' caller r sc' (n + len token) tokens
              else ReadTokens_loop fuel' caller r sc' (n + len token) (tokens ++ [token])
          | Panic m => Panic m
          | Blocked => Blocked
          | OutOfFuel => OutOfFuel
          end
      | Ret (false, sc') => Ret (after_loop caller r sc' tokens)
      | Panic m => Panic m
      | Blocked => Blocked
      | OutOfFuel => OutOfFuel
      end
  end.

(** ReadTokens, allowed [fuel] passes of its loop. *)
Definition ReadTokens (fuel : nat) (caller : CallSite) (r : Reader)
    : result (list bytes * option error) :=
  ReadTokens_loop fuel caller r (NewScanner (reader r)) 0 [].

(** The loop of StreamTokens; [k] counts the handoffs made so far and
    [out] is what the consumer has received. *)
Fixpoint StreamTokens_loop (fuel : nat) (caller : CallSite) (r : Reader)
    (ctx : Context) (sc : Scanner) (n : Z) (k : nat) (out : list bytes)
    : result (list bytes * option error) :=
  match fuel with
  | O => OutOfFuel
  | S fuel' =>
      match Scan (SplitFunc_of (delimiter r)) sc with
      | Ret (true, sc') =>
          match at_end r (Text sc') with
          | Ret true => Ret (out, None)
          | Ret false =>
              let token := normalized r (Text sc') in
              if refused r token then
                if FailOnInvalid r
                then Ret (out, Some (newErrInvalid caller token n))
                else StreamTokens_loop fuel' caller r ctx sc' (n + len token) k out
              else
                match select (handoffs ctx k) with
                | Sent =>
                    StreamTokens_loop fuel' caller r ctx sc' (n + len token) (S k)
                                      (out ++ [token])
                | Cancelled => Ret (out, Some (ctx_Err ctx))
                | Never => Blocked
                end
          | Panic m => Panic m
          | Blocked => Blocked
          | OutOfFuel => OutOfFuel
          end
      | Ret (false, sc') => Ret (after_loop caller r sc' out)
      | Panic m => Panic m
      | Blocked => Blocked
      | OutOfFuel => OutOfFuel
      end
  end.

Definition StreamTokens (fuel : nat) (caller : CallSite) (r : Reader) (ctx : Context)
    : result (list bytes * option error) :=
  StreamTokens_loop fuel caller r ctx (NewScanner (reader r)) 0 0%nat [].

(** Of the raw tokens [raw], those that come out. *)
Definition kept (r : Reader) (raw : list bytes) : list bytes :=
  List.filter (fun t => negb (refused r t)) (map (normalized r) raw).

(** The raw tokens [raw] go round the loop: none matches the end
    delimiter, none ends the call with an Invalid error. *)
Definition pass_on (r : Reader) (raw : list bytes) : Prop :=
  Forall (fun t => at_end r t = Ret false /\
                   (refused r (normalized r t) = true -> FailOnInvalid r = false)) raw.

Lemma ReadTokens_loop_along caller r s0 pre s1 :
  Scans (SplitFunc_of (delimiter r)) s0 pre s1 -> pass_on r pre ->
  forall fuel n acc, exists n',
    ReadTokens_loop (length pre + fuel) caller r s0 n acc =
    ReadTokens_loop fuel caller r s1 n' (acc ++ kept r pre).
Proof.
  induction 1 as [s|s s1 s2 toks Hscan _ IH]; intros Hpass fuel n acc.
  - exists n. unfold kept. simpl. by rewrite app_nil_r.
  - apply Forall_cons in Hpass as [[Hend Hfat] Hpass].
    cbn [length Nat.add ReadTokens_loop]. rewrite Hscan, Hend.
    unfold kept. cbn [map List.filter].
    destruct (refused r (normalized r (Text s1))) eqn:Href; cbn [negb].
    + rewrite (Hfat eq_refl). apply (IH Hpass).
    + destruct (IH Hpass fuel (n + len (normalized r (Text s1)))
                  (acc ++ [normalized r (Text s1)])) as [n' ->].
      exists n'. by rewrite <- app_assoc.
Qed.

Lemma StreamTokens_loop_along caller r ctx s0 pre s1 :
  Scans (SplitFunc_of (delimiter r)) s0 pre s1 -> pass_on r pre ->
  forall fuel n k out,
    (forall j, (j < length (kept r pre))%nat -> select (handoffs ctx (k + j)) = Sent) ->
    exists n',
      StreamTokens_loop (length pre + fuel) caller r ctx s0 n k out =
      StreamTokens_loop fuel caller r ctx s1 n' (k + length (kept r pre))
                        (out ++ kept r pre).
Proof.
  induction 1 as [s|s s1 s2 toks Hscan _ IH]; intros Hpass fuel n k out Hsent.
  - exists n. unfold kept. simpl. by rewrite app_nil_r, Nat.add_0_r.
  - apply Forall_cons in Hpass as [[Hend Hfat] Hpass].
    cbn [length Nat.add StreamTokens_loop]. rewrite Hscan, Hend.
    revert Hsent. unfold kept. cbn [map List.filter].
    destruct (refused r (normalized r (Text s1))) eqn:Href; cbn [negb]; intros Hsent.
    + rewrite (Hfat eq_refl). apply (IH Hpass). exact Hsent.
    + pose proof (Hsent 0%nat ltac:(simpl; lia)) as H0. rewrite Nat.add_0_r in H0.
      rewrite H0.
      destruct (IH Hpass fuel (n + len (normalized r (Text s1))) (S k)
                  (out ++ [normalized r (Text s1)])) as [n' ->].
      * intros j Hj. replace (S k + j)%nat with (k + S j)%nat by lia.
        apply Hsent. unfold kept in Hj. simpl. lia.
      * exists n'. unfold kept. cbn [length]. rewrite <- app_assoc.
        by rewrite Nat.add_succ_r.
Qed.

(** X25: a token that matches the end delimiter ends the scan.  When the
    scanner has yielded the tokens [pre], none of which matches the end
    delimiter or ends the call, and then a token that matches it, ReadTokens
    returns the tokens of [pre] that come out, and the scanner's error, if
    any, as a Read error; StreamTokens has delivered the same tokens and
    returns nil.  The matching token and what follows it are dropped. *)
Theorem end_delimiter_ends_scan caller r ctx pre s1 s2 fuel :
  Scans (SplitFunc_of (delimiter r)) (NewScanner (reader r)) pre s1 ->
  pass_on r pre ->
  Scan (SplitFunc_of (delimiter r)) s1 = Ret (true, s2) ->
  at_end r (Text s2) = Ret true ->
  (forall j, (j < length (kept r pre))%nat -> select (handoffs ctx j) = Sent) ->
  (length pre < fuel)%nat ->
  ReadTokens fuel caller r = Ret (after_loop caller r s2 (kept r pre)) /\
  StreamTokens fuel caller r ctx = Ret (kept r pre, None).
Proof.
  intros HS Hpass Hscan Hend Hsent Hfuel.
  replace fuel with (length pre + S (fuel - length pre - 1))%nat by lia.
  split.
  - unfold ReadTokens.
    destruct (ReadTokens_loop_along caller r _ _ _ HS Hpass
                (S (fuel - length pre - 1)) 0 []) as [n' ->].
    cbn [ReadTokens_loop]. by rewrite Hscan, Hend.
  - unfold StreamTokens.
    destruct (StreamTokens_loop_along caller r ctx _ _ _ HS Hpass
                (S (fuel - length pre - 1)) 0 0%nat [] Hsent) as [n' ->].
    cbn [StreamTokens_loop]. by rewrite Hscan, Hend.
Qed.

(** *** Against the reference split, empty tokens included

    With a literal delimiter every match consumes input, so the scanner
    follows the reference split through its empty tokens as well. *)

(** The reader.go Reader that scans as the Delimiter [d] does. *)
Definition scans_as (d : delimiter.Delimiter) : reader.Reader :=
  {| reader.reader := bufio.NewReader []; reader.delimiter := delimiter.regexpr d;
     reader.delimiterStr := delimiter.str d; reader.normalize := None;
     reader.filter := None; reader.FailOnError := true; reader.FailOnInvalid := false |}.

(** The delimiter is a literal. *)
Definition literal (R : reader.Reader) : Prop :=
  reader.delimiter R = None /\ reader.delimiterStr R <> [].

(** What a call of Scan yields, against the reference split [raw] of the
    bytes that were pending. *)
Definition yields_all (R : reader.Reader) (bound : nat) (raw : list bytes)
    (res : result (bool * Scanner)) : Prop :=
  match raw with
  | [] => exists s', res = Ret (false, s') /\ Err s' = None
  | t :: raw' =>
      exists s', res = Ret (true, s') /\ Text s' = t /\ Err s' = None /\
        ready R s' /\ (length (pending s') < bound)%nat /\
        reference_split (boundary R) (pending s') = raw'
  end.

(** A run of the scanner with no error pending at any token. *)
Inductive Scans_clean (split : SplitFunc) : Scanner -> list bytes -> Scanner -> Prop :=
| Scans_clean_nil s : Scans_clean split s [] s
| Scans_clean_cons s s1 s2 toks :
    Scan split s = Ret (true, s1) -> Err s1 = None -> Scans_clean split s1 toks s2 ->
    Scans_clean split s (Text s1 :: toks) s2.

(** The raw tokens before the first one that matches the end delimiter. *)
Fixpoint before_end (r : Reader) (raw : list bytes) : list bytes :=
  match raw with
  | [] => []
  | t :: raw' =>
      match at_end r t with
      | Ret true => []
      | _ => t :: before_end r raw'
      end
  end.

Lemma literal_configured R : literal R -> configured R.
Proof. intros [_ H]. by right. Qed.

Lemma literal_match R data lo hi :
  literal R -> boundary R data = Some (lo, hi) -> 0 <= lo /\ lo < hi /\ hi <= len data.
Proof.
  intros [Hd Hsep] Hm. pose proof (boundary_bounds _ _ _ _ Hm) as [Hlo Hhi].
  rewrite reader_facts.literal_boundary in Hm by done.
  destruct (0 <=? Index data (reader.delimiterStr R)); [|done].
  injection Hm as <- <-. pose proof (len_pos _ Hsep). lia.
Qed.

Lemma try_split_yields_all R s rest lo hi :
  literal R -> done s = false -> err s = None -> r_final s = EOF ->
  buf s <> [] -> concat (bufio.r s) = rest ->
  Forall (fun c => c <> []) (bufio.r s) ->
  boundary R (buf s) = Some (lo, hi) ->
  exists res, try_split (reader.createSplitFunc R) s = Done_ res /\
    yields_all R (length (buf s ++ rest))
               (reference_split (boundary R) (buf s ++ rest)) res.
Proof.
  intros Hlit Hd He Hf Hb Hrest Hne Hm.
  pose proof (literal_configured R Hlit) as Hc.
  destruct (literal_match R _ _ _ Hlit Hm) as (Hlo & Hpos & Hhi).
  rewrite (try_split_match R s lo hi) by done.
  eexists. split; [reflexivity|].
  assert (Hne' : buf s ++ rest <> []) by (destruct (buf s); done).
  rewrite (reference_split_match _ _ lo hi Hne'
             (boundary_app _ _ _ _ _ (or_introl (proj1 Hlit)) Hm)).
  unfold yields_all. eexists. split; [reflexivity|]. simpl.
  rewrite upto_app by lia. split; [done|]. split; [done|].
  unfold pending. simpl. rewrite Hrest.
  rewrite Z.max_r by lia. rewrite from_app by lia.
  split; [|split; [|done]].
  - repeat split; auto. left. split; [done|]. left. apply Hlit.
  - rewrite !length_app, length_from.
    assert (0 < length (buf s))%nat by (destruct (buf s); simpl; [done | lia]).
    unfold len in Hhi. lia.
Qed.

Lemma pass_at_err_yields_all R s :
  literal R -> done s = false -> empties s = 0%nat -> err s = Some EOF ->
  r_final s = EOF -> bufio.r s = [] ->
  (buf s = [] \/ boundary R (buf s) = None) ->
  yields_all R (length (buf s)) (reference_split (boundary R) (buf s))
             (pass_at_err (reader.createSplitFunc R) s).
Proof.
  intros Hlit Hd He Herr Hf Hr Hb.
  pose proof (pass_at_err_yields R s (literal_configured R Hlit) Hd He Herr Hf Hr Hb) as H.
  destruct (decide (buf s = [])) as [Hb0|Hb0].
  - rewrite Hb0 in *. by rewrite reference_split_nil in *.
  - destruct Hb as [?|Hm]; [done|].
    rewrite (reference_split_nomatch _ _ Hb0 Hm) in *.
    destruct H as (s' & Hres & Ht & HE & Hnext). destruct (Hnext Hb0) as (? & ? & ?).
    by exists s'.
Qed.

Lemma read_more_yields_all R :
  literal R ->
  forall src loop s,
    done s = false -> empties s = 0%nat -> err s = None -> r_final s = EOF ->
    Forall (fun c => c <> []) src ->
    (buf s = [] \/ boundary R (buf s) = None) ->
    len (buf s ++ concat src) < MaxScanTokenSize ->
    yields_all R (length (buf s ++ concat src))
               (reference_split (boundary R) (buf s ++ concat src))
               (read_more (reader.createSplitFunc R) src loop s).
Proof.
  intros Hlit. pose proof (literal_configured R Hlit) as Hc.
  induction src as [|c src IH];
    intros loop s Hd He Herr Hf Hne Hb Hfit;
    cbn [read_more];
    (replace (MaxScanTokenSize <=? len (buf s)) with false
       by (symmetry; apply Z.leb_gt; revert Hfit; unfold len;
           rewrite length_app; lia)).
  - unfold setErr. simpl. rewrite Herr, Hf, app_nil_r.
    by apply (pass_at_err_yields_all R
      {| r := []; r_final := EOF; buf := buf s; tok := tok s; err := Some EOF;
         empties := empties s; done := done s |}).
  - apply Forall_cons in Hne as [Hc0 Hne].
    apply is_empty_false in Hc0. rewrite Hc0.
    apply is_empty_false in Hc0.
    set (s1 := {| r := src; r_final := r_final s; buf := buf s ++ c; tok := tok s;
                  err := err s; empties := 0; done := done s |}).
    assert (Hb1 : buf s1 <> []) by (unfold s1; simpl; destruct (buf s); [done | done]).
    simpl concat. rewrite app_assoc.
    destruct (boundary R (buf s1)) as [[lo hi]|] eqn:Hm.
    + destruct (try_split_yields_all R s1 (concat src) lo hi) as (res & -> & Hy); auto.
    + pose proof (try_split_nomatch R s1 Hc Herr Hb1 Hm) as Hs.
      fold s1. rewrite Hs. simpl.
      apply (IH 0%nat {| r := src; r_final := r_final s; buf := buf s ++ c; tok := None;
                         err := None; empties := 0; done := done s |}); auto.
      simpl. simpl in Hfit. by rewrite <- app_assoc.
Qed.

Lemma Scan_yields_all R s :
  literal R -> ready R s -> len (pending s) < MaxScanTokenSize ->
  yields_all R (length (pending s)) (reference_split (boundary R) (pending s))
             (Scan (reader.createSplitFunc R) s).
Proof.
  intros Hlit (Hd & He & Hf & Hne & Hstate) Hfit.
  pose proof (literal_configured R Hlit) as Hc. unfold Scan. rewrite Hd.
  destruct Hstate as [[Herr _] | (Herr & Hr & Hb)].
  - unfold pending. destruct (decide (buf s = [])) as [Hb|Hb].
    + rewrite try_split_idle by done. rewrite Herr.
      apply read_more_yields_all; auto.
    + destruct (boundary R (buf s)) as [[lo hi]|] eqn:Hm.
      * destruct (try_split_yields_all R s (concat (bufio.r s)) lo hi)
          as (res & -> & Hy); auto.
      * rewrite (try_split_nomatch R s) by done. simpl.
        apply (read_more_yields_all R Hlit (bufio.r s) 0%nat
                 {| r := bufio.r s; r_final := r_final s; buf := buf s; tok := None;
                    err := None; empties := empties s; done := done s |}); auto.
  - unfold pending. rewrite Hr, Hb. simpl.
    rewrite (try_split_end R s EOF) by done. simpl.
    unfold yields_all, shutdown. simpl. eexists. split; [reflexivity | done].
Qed.

(** With a literal delimiter the scanner yields the whole reference split
    of what is pending, and then ends with no error. *)
Lemma Scans_whole_reference R :
  literal R ->
  forall k s, ready R s -> (length (pending s) <= k)%nat ->
    len (pending s) < MaxScanTokenSize ->
    exists s1 s2,
      Scans_clean (reader.createSplitFunc R) s
                  (reference_split (boundary R) (pending s)) s1 /\
      Scan (reader.createSplitFunc R) s1 = Ret (false, s2) /\ Err s2 = None.
Proof.
  intros Hlit. induction k as [|k IH]; intros s Hs Hlen Hfit;
    pose proof (Scan_yields_all R s Hlit Hs Hfit) as Hy;
    destruct (reference_split (boundary R) (pending s)) as [|t raw].
  - destruct Hy as (s' & HS & HE). exists s, s'. split; [constructor | done].
  - destruct Hy as (s' & HS & HT & HE & Hr' & Hlt & Hraw). lia.
  - destruct Hy as (s' & HS & HE). exists s, s'. split; [constructor | done].
  - destruct Hy as (s' & HS & HT & HE & Hr' & Hlt & Hraw).
    destruct (IH s' Hr' ltac:(lia) ltac:(unfold len in *; lia))
      as (s1 & s2 & HSc & Hlast & HE2).
    rewrite Hraw in HSc. exists s1, s2. split; [|done].
    rewrite <- HT. by econstructor.
Qed.

Lemma SplitFunc_scans_as d :
  delimiter.regexpr d = None -> delimiter.str d <> [] ->
  delimiter.SplitFunc d = reader.createSplitFunc (scans_as d).
Proof.
  intros Hre Hs. unfold delimiter.SplitFunc, reader.createSplitFunc. simpl.
  rewrite Hre. by destruct (delimiter.str d).
Qed.

Lemma kept_cons r t raw :
  kept r (t :: raw) =
    if refused r (normalized r t) then kept r raw else normalized r t :: kept r raw.
Proof. unfold kept. simpl. by destruct (refused r (normalized r t)). Qed.

Lemma ReadTokens_loop_clean caller r s0 raw s1 s2 :
  Scans_clean (SplitFunc_of (delimiter r)) s0 raw s1 ->
  Scan (SplitFunc_of (delimiter r)) s1 = Ret (false, s2) -> Err s2 = None ->
  (forall t, exists b, at_end r t = Ret b) -> FailOnInvalid r = false ->
  forall fuel n acc,
    (length raw < fuel)%nat ->
    ReadTokens_loop fuel caller r s0 n acc = Ret (acc ++ kept r (before_end r raw), None).
Proof.
  intros HS Hlast HE2 Hend Hfi.
  induction HS as [s|s s1 s2' toks Hscan HE _ IH]; intros fuel n acc Hfuel;
    (destruct fuel as [|fuel]; [simpl in Hfuel; lia|]); cbn [ReadTokens_loop].
  - rewrite Hlast. unfold after_loop. rewrite HE2. simpl. by rewrite app_nil_r.
  - rewrite Hscan. cbn [before_end]. destruct (Hend (Text s1)) as [[] ->].
    + unfold after_loop. rewrite HE. simpl. by rewrite app_nil_r.
    + rewrite kept_cons.
      destruct (refused r (normalized r (Text s1))).
      * rewrite Hfi. apply (IH Hlast). simpl in Hfuel. lia.
      * rewrite (IH Hlast) by (simpl in Hfuel; lia). by rewrite <- app_assoc.
Qed.

(** X29: for the Reader with a *Delimiter whose delimiter is a literal,
    with FailOnInvalid off, on a source that hands over an input shorter
    than 64 KiB in non-empty reads and ends: ReadTokens returns the tokens
    of the reference split of the input, empty tokens included, up to the
    first one that matches the end delimiter, each normalized, without those
    the filter refuses, and no error. *)
Theorem ReadTokens_whole_reference_split caller r d input fuel :
  delimiter r = Some d -> delimiter.regexpr d = None -> delimiter.str d <> [] ->
  (forall t, exists b, at_end r t = Ret b) -> FailOnInvalid r = false ->
  final (reader r) = EOF -> Forall (fun c => c <> []) (chunks (reader r)) ->
  concat (chunks (reader r)) = input -> len input < MaxScanTokenSize ->
  (length (reference_split (boundary (scans_as d)) input) < fuel)%nat ->
  ReadTokens fuel caller r =
    Ret (kept r (before_end r (reference_split (boundary (scans_as d)) input)), None).
Proof.
  intros Hd Hre Hs Hend Hfi Hfin Hne Hcat Hfit Hfuel.
  assert (Hlit : literal (scans_as d)) by (by split).
  assert (Hready : ready (scans_as d) (NewScanner (reader r))).
  { repeat split; auto. }
  destruct (Scans_whole_reference (scans_as d) Hlit _ _ Hready (Nat.le_refl _))
    as (s1 & s2 & HS & Hlast & HE);
    [by rewrite pending_NewScanner, Hcat|].
  rewrite pending_NewScanner, Hcat in HS.
  assert (Hsplit : SplitFunc_of (delimiter r) = reader.createSplitFunc (scans_as d)).
  { rewrite Hd. cbn [SplitFunc_of]. by apply SplitFunc_scans_as. }
  unfold ReadTokens.
  apply (ReadTokens_loop_clean caller r (NewScanner (reader r))
           (reference_split (boundary (scans_as d)) input) s1 s2);
    try done; by rewrite Hsplit.
Qed.

(** X26: scanning with a nil delimiter (after SetDelimiter(nil)) panics
    with a nil dereference as soon as there is input to split; on an empty
    input the call returns no token and no error. *)
Theorem nil_delimiter_panics caller r (data : bytes) fuel :
  delimiter r = None -> reader r = bufio.NewReader data -> (0 < fuel)%nat ->
  ReadTokens fuel caller r =
    if is_empty data then Ret ([], None)
    else Panic "invalid memory address or nil pointer dereference".
Proof.
  intros Hd Hr Hfuel. destruct fuel as [|fuel]; [lia|].
  unfold ReadTokens. cbn [ReadTokens_loop]. rewrite Hd, Hr.
  destruct data as [|c data]; [by vm_compute|].
  rewrite split_facts.Scan_string_reader by done.
  unfold try_split. cbn [buf err notnil is_empty negb orb SplitFunc_of andb].
  done.
Qed.

End Reader.
End endreader.

(** ** The facts on concrete inputs *)

Module fact_examples.
Import bufio reader_examples.

Local Open Scope string_scope.

(** NewReader() with the delimiter "," and then the compiled \s+. *)
Definition respaced : reader.Reader (engine := toyregexp.engine) :=
  reader.SetDelimiter (engine := toyregexp.engine) (Some (toyregexp.Run isSpace))
    (reader.SetDelimiterStr (B ",") (reader.NewReader (bufio.NewReader []))).

(** The Delimiter with the token "," and the stop ";". *)
Definition comma_semicolon : stopdelim.Delimiter (engine := toyregexp.engine) :=
  stopdelim.SetStopStr (B ";") (stopdelim.SetTokenStr (B ",") stopdelim.DefaultDelimiter).

(** A heap with one Reader. *)
Definition one_reader : gmap nat (reader.Reader (engine := toyregexp.engine)) :=
  {[ 0%nat := reader.NewReader (bufio.NewReader (B "stdin")) ]}.

(** The state Close leaves. *)
Definition closed_state (rc : nat)
    (st : readercloser.State (engine := toyregexp.engine) (resources := readercloser.files))
    : readercloser.State (engine := toyregexp.engine) (resources := readercloser.files) :=
  match readercloser.Close builder_facts.site rc st with
  | Ret (_, st') => st'
  | _ => st
  end.

(** Two readers, the first of which is a closer (the file 2). *)
Definition two_inputs : list readercloser.Input :=
  [ {| readercloser.in_source := bufio.NewReader (B "x");
       readercloser.in_closer := Some 2%nat |};
    {| readercloser.in_source := bufio.NewReader (B "y");
       readercloser.in_closer := None |} ].

(** The Reader of the ReaderCloser reading "hello\nworld\nend\nmore" with
    the end delimiter "end". *)
Definition until_end : readercloser.Reader (engine := toyregexp.engine) :=
  readercloser.Reader_SetEndDelimiter
    (Some (delimiter.WithStr (B "end") delimiter.DefaultDelimiter))
    (readercloser.Reader_SetReaders
       [bufio.NewReader (lines ["hello"; "world"; "end"; "more"])]
       (readercloser.NewReader (bufio.NewReader []))).

(** The same with a nil delimiter. *)
Definition no_delimiter : readercloser.Reader (engine := toyregexp.engine) :=
  {| readercloser.reader := bufio.NewReader (B "a");
     readercloser.delimiter := None; readercloser.endDelimiter := None;
     readercloser.normalize := None; readercloser.filter := None;
     readercloser.FailOnError := true; readercloser.FailOnInvalid := false |}.

(** The scanner of [r] after [n] calls of Scan. *)
Definition after_scans (n : nat) (r : readercloser.Reader (engine := toyregexp.engine))
    : Scanner :=
  Nat.iter n (fun s => match Scan (endreader.SplitFunc_of (readercloser.delimiter r)) s with
                       | Ret (_, s') => s'
                       | _ => s
                       end)
           (NewScanner (readercloser.reader r)).

(** X3, on "a,b,c" split on "," with a consumer that is always ready. *)
Lemma StreamTokens_delivers_what_ReadTokens_returns_witness :
  reader.StreamTokens site triple background = reader.ReadTokens site triple.
Proof.
  apply (reader_facts.StreamTokens_delivers_what_ReadTokens_returns site triple background).
  intros k. reflexivity.
Defined.


(** X5, on the error of a context cancelled after one handoff. *)
Lemma StreamTokens_error_kinds_witness :
  reader_facts.invalid_error triple Canceled \/
  reader_facts.read_error triple Canceled \/
  Canceled = ctx_Err (cancelled_after 1).
Proof.
  apply (reader_facts.StreamTokens_error_kinds site triple (cancelled_after 1) [B "a"]).
  vm_compute; reflexivity.
Defined.


(** X7, on the data "a,b" with the delimiter ",". *)
Lemma createSplitFunc_literal_token_witness :
  Contains (B "a") (reader.delimiterStr triple) = false /\
  (upto (B "a,b") 2 = (B "a" ++ reader.delimiterStr triple)%list \/
   (false = true /\ B "a" = B "a,b" /\ 2 = len (B "a,b"))).
Proof.
  apply (reader_facts.createSplitFunc_literal_token triple (B "a,b") false 2 (B "a") None).
  - reflexivity.
  - discriminate.
  - vm_compute; reflexivity.
Defined.

(** X8, on "a,b,c" split on ",". *)
Lemma ReadTokens_tokens_without_delimiter_witness :
  Forall (fun t => Contains t (reader.delimiterStr triple) = false) [B "a"; B "b"; B "c"].
Proof.
  apply (reader_facts.ReadTokens_tokens_without_delimiter site triple _ None).
  - reflexivity.
  - discriminate.
  - reflexivity.
  - vm_compute; reflexivity.
Defined.


(** X12, on NewReader() after SetDelimiterStr(",") and SetDelimiter(\s+). *)
Lemma reachable_delimiter_forms_witness :
  reader.delimiter respaced = None \/ reader.delimiterStr respaced = [].
Proof.
  apply (reader_facts.reachable_delimiter_forms respaced).
  apply reader_facts.reach_SetDelimiter, reader_facts.reach_SetDelimiterStr,
    reader_facts.reach_NewReader.
Defined.

(** X14, on WithDelimiterStr(",") called on a Reader made by NewReader(). *)
Lemma build_keeps_original_witness :
  exists q h', reader.build (reader.SetDelimiterStr (B ",")) 0%nat one_reader = Ret (q, h') /\
               q <> 0%nat /\
               h' !! 0%nat = Some (reader.NewReader (bufio.NewReader (B "stdin"))) /\
               h' !! q = Some (reader.SetDelimiterStr (B ",")
                                 (reader.NewReader (bufio.NewReader (B "stdin")))) /\
               (forall p', p' <> q -> h' !! p' = one_reader !! p').
Proof.
  apply (builder_facts.build_keeps_original (reader.SetDelimiterStr (B ",")) 0%nat one_reader).
  reflexivity.
Defined.


(** X16, on DefaultDelimiter().WithStr("--"). *)
Lemma reachable_Delimiter_never_panics_witness :
  delimiter_facts.one_form builder_facts.dashes /\
  split_facts.keeps_protocol (delimiter.SplitFunc builder_facts.dashes) /\
  (forall s, exists b, delimiter.MatchString builder_facts.dashes s = Ret b).
Proof.
  apply (pattern_facts.reachable_Delimiter_never_panics builder_facts.dashes).
  apply delimiter.reach_SetStr, delimiter.reach_Default.
Defined.

(** X17, on the Delimiter with the token "," and the stop ";". *)
Lemma reachable_exclusive_witness :
  delimiter_facts.exclusive (stopdelim.token comma_semicolon) /\
  delimiter_facts.exclusive (stopdelim.stop comma_semicolon).
Proof.
  apply (delimiter_facts.reachable_exclusive comma_semicolon).
  apply delimiter_facts.reach_SetStopStr, delimiter_facts.reach_SetTokenStr,
    delimiter_facts.reach_Default.
Defined.


(** X21, on a ReaderCloser tracking four files. *)
Lemma Close_twice_witness :
  readercloser.Close builder_facts.site 0%nat (closed_state 0%nat builder_facts.tracking) =
    Ret (None, closed_state 0%nat builder_facts.tracking).
Proof.
  apply (closer_facts.Close_twice builder_facts.site 0%nat builder_facts.tracking
           (Some (newErrClose builder_facts.site (Cause "input/output error")))).
  vm_compute; reflexivity.
Defined.

(** X22, on a ReaderCloser that reads and tracks a file. *)
Lemma SetReaders_closes_and_tracks_witness :
  exists st',
    readercloser.SetReaders builder_facts.site two_inputs 0%nat builder_facts.reading_file =
      Ret st' /\
    readercloser.config 0%nat st' =
      Some (readercloser.Reader_SetReaders (map readercloser.in_source two_inputs)
              (readercloser.Reader_SetReaders [bufio.NewReader (B "a")]
                 (readercloser.NewReader (bufio.NewReader []))),
            omap readercloser.in_closer two_inputs) /\
    readercloser.world st' =
      (readercloser.close_each [0%nat] (readercloser.world builder_facts.reading_file)).1 /\
    (forall rc', rc' <> 0%nat ->
       readercloser.rcs st' !! rc' = readercloser.rcs builder_facts.reading_file !! rc').
Proof.
  apply (closer_facts.SetReaders_closes_and_tracks builder_facts.site two_inputs 0%nat
           builder_facts.reading_file
           {| readercloser.Reader_ptr := Some 0%nat; readercloser.closers := [0%nat] |}
           0%nat
           (readercloser.Reader_SetReaders [bufio.NewReader (B "a")]
              (readercloser.NewReader (bufio.NewReader [])))); reflexivity.
Defined.

(** X24, on a file that opens, for a ReaderCloser that tracks another. *)
Lemma FromFile_opens_or_fails_witness :
  exists q st',
    readercloser.FromFile builder_facts.site (B "b.txt") 0%nat builder_facts.reading_file =
      Ret (Some q, None, st') /\
    readercloser.rcs builder_facts.reading_file !! q = None /\
    readercloser.config q st' =
      Some (readercloser.Reader_SetReaders [bufio.NewReader (B "b")]
              (readercloser.Reader_SetReaders [bufio.NewReader (B "a")]
                 (readercloser.NewReader (bufio.NewReader []))),
            [1%nat]) /\
    readercloser.world st' =
      (readercloser.close_each [0%nat] (readercloser.world builder_facts.reading_file)).1.
Proof.
  apply (closer_facts.FromFile_opens_or_fails builder_facts.site (B "b.txt") 0%nat
           builder_facts.reading_file
           {| readercloser.Reader_ptr := Some 0%nat; readercloser.closers := [0%nat] |}
           0%nat
           (readercloser.Reader_SetReaders [bufio.NewReader (B "a")]
              (readercloser.NewReader (bufio.NewReader [])))); reflexivity.
Defined.

(** X23, on a ReaderCloser that reads and tracks a file. *)
Lemma WithReaders_closes_and_tracks_witness :
  (exists q st',
     readercloser.WithReaders builder_facts.site two_inputs 0%nat
       builder_facts.reading_file = Ret (q, st') /\
     readercloser.rcs builder_facts.reading_file !! q = None /\
     readercloser.config q st' =
       Some (readercloser.Reader_SetReaders (map readercloser.in_source two_inputs)
               (readercloser.Reader_SetReaders [bufio.NewReader (B "a")]
                  (readercloser.NewReader (bufio.NewReader []))),
             omap readercloser.in_closer two_inputs) /\
     readercloser.world st' =
       (readercloser.close_each [0%nat]
          (readercloser.world builder_facts.reading_file)).1) /\
  (forall s, readercloser.FromString builder_facts.site s 0%nat builder_facts.reading_file =
             readercloser.WithReaders builder_facts.site
               [ {| readercloser.in_source := bufio.NewReader s;
                    readercloser.in_closer := None |} ]
               0%nat builder_facts.reading_file) /\
  (forall b, readercloser.FromBytes builder_facts.site b 0%nat builder_facts.reading_file =
             readercloser.WithReaders builder_facts.site
               [ {| readercloser.in_source := bufio.NewReader b;
                    readercloser.in_closer := None |} ]
               0%nat builder_facts.reading_file).
Proof.
  apply (closer_facts.WithReaders_closes_and_tracks builder_facts.site two_inputs 0%nat
           builder_facts.reading_file
           {| readercloser.Reader_ptr := Some 0%nat; readercloser.closers := [0%nat] |}
           0%nat
           (readercloser.Reader_SetReaders [bufio.NewReader (B "a")]
              (readercloser.NewReader (bufio.NewReader [])))); reflexivity.
Defined.



(** X10, on "hello,world" given as the three readers "he", "llo,wor", "ld". *)
Lemma tokens_span_readers_witness :
  reader.ReadTokens site
    (reader.SetReaders (map bufio.NewReader [B "he"; B "llo,wor"; B "ld"]) triple) =
  reader.ReadTokens site
    (reader.SetReaders [bufio.NewReader (concat [B "he"; B "llo,wor"; B "ld"])] triple).
Proof.
  apply (reader_facts.tokens_span_readers site triple [B "he"; B "llo,wor"; B "ld"]).
  - reflexivity.
  - discriminate.
  - reflexivity.
  - vm_compute; reflexivity.
Defined.

(** X25, on the lines hello, world, end, more with the end delimiter "end". *)
Lemma end_delimiter_ends_scan_witness :
  endreader.ReadTokens 3 site until_end =
    Ret (endreader.after_loop site until_end (after_scans 3 until_end)
           (endreader.kept until_end [B "hello"; B "world"])) /\
  endreader.StreamTokens 3 site until_end background =
    Ret (endreader.kept until_end [B "hello"; B "world"], None).
Proof.
  apply (endreader.end_delimiter_ends_scan site until_end background
           [B "hello"; B "world"] (after_scans 2 until_end) (after_scans 3 until_end) 3).
  - apply (reader_scan.Scans_cons_eq _ _ (after_scans 1 until_end));
      [vm_compute; reflexivity | vm_compute; reflexivity |].
    apply (reader_scan.Scans_cons_eq _ _ (after_scans 2 until_end));
      [vm_compute; reflexivity | vm_compute; reflexivity |].
    apply reader_scan.Scans_nil.
  - repeat constructor; try (vm_compute; reflexivity); intros [=].
  - vm_compute; reflexivity.
  - vm_compute; reflexivity.
  - intros j _. reflexivity.
  - simpl. lia.
Defined.

(** X29, on the lines hello, world, end, more with the end delimiter "end". *)
Lemma ReadTokens_whole_reference_split_witness :
  endreader.ReadTokens 5 site until_end = Ret ([B "hello"; B "world"], None).
Proof.
  apply (endreader.ReadTokens_whole_reference_split site until_end
           delimiter.DefaultDelimiter (lines ["hello"; "world"; "end"; "more"]) 5).
  - reflexivity.
  - reflexivity.
  - discriminate.
  - intros t. eexists. reflexivity.
  - reflexivity.
  - reflexivity.
  - repeat constructor; discriminate.
  - vm_compute; reflexivity.
  - vm_compute; reflexivity.
  - vm_compute; lia.
Defined.

(** X26, on the string "a". *)
Lemma nil_delimiter_panics_witness :
  endreader.ReadTokens 1 site no_delimiter =
    Panic "invalid memory address or nil pointer dereference".
Proof.
  apply (endreader.nil_delimiter_panics site no_delimiter (B "a") 1).
  - reflexivity.
  - reflexivity.
  - lia.
Defined.

End fact_examples.
